(** * Vehicle emission testing: model and verification

    A shallow embedding of [Vehicle_emission_testing.cpp].

    - C++ [double] is IEEE 754 binary64, modelled by the Standard Library's
      executable [spec_float] at precision 53 and maximal exponent 1024.
    - The strategy interface is a record holding the virtual method; vehicles
      are a tagged union of the two subclasses, each carrying its strategy.
    - The state pattern ([EmissionTestState] and its three subclasses) is an
      enumeration; virtual dispatch on it is the function [handleTest].
    - A thrown exception is an [option exception] next to the test record as
      it stands when the exception leaves the call.
    - Output and the shared result map are effects: each thread produces the
      sequence of atomic actions it performs, and a step relation interleaves
      the threads' actions over the shared world. *)

From Stdlib Require Import ZArith String Ascii List Lia SpecFloat.
From stdpp Require Import base option list gmap strings pretty relations.
From Equations Require Import Equations.

Open Scope Z_scope.

(** ** IEEE 754 binary64 *)

Module Double.

Definition prec : Z := 53.
Definition emax : Z := 1024.

Definition double : Type := spec_float.

(** Conversion of an integer literal or value to [double]. *)
Definition of_Z (z : Z) : double := binary_normalize prec emax z 0 false.

Definition zero : double := S754_zero false.

(** The literal [0.1]: the binary64 number nearest to one tenth,
    [0x1.999999999999ap-4]. *)
Definition tenth : double := S754_finite false 7205759403792794 (-56).

Definition mul (x y : double) : double := SFmul prec emax x y.
Definition div (x y : double) : double := SFdiv prec emax x y.
Definition ltb (x y : double) : bool := SFltb x y.
Definition leb (x y : double) : bool := SFleb x y.
Definition eqb (x y : double) : bool := SFeqb x y.

(** A well-formed binary64 value (canonical mantissa, bounded exponent). *)
Definition valid (x : double) : bool := valid_binary prec emax x.

End Double.

Import Double.

(** ** Emission strategies (lines 11-32) *)

(** [class EmissionStrategy]: one virtual method. *)
Record EmissionStrategy : Type := {
  calculateEmission : double -> double
}.

Definition GasEmissionStrategy : EmissionStrategy :=
  {| calculateEmission := fun engineSize => mul engineSize tenth |}.

Definition ElectricEmissionStrategy : EmissionStrategy :=
  {| calculateEmission := fun batteryCapacity => of_Z 0 |}.

(** ** Vehicles (lines 34-91) *)

Inductive Vehicle : Type :=
| GasVehicle (age : Z) (emissionStandard : string) (engineSize : double)
             (emissionStrategy : EmissionStrategy)
| ElectricVehicle (age : Z) (emissionStandard : string) (batteryCapacity : double)
                  (emissionStrategy : EmissionStrategy).

Definition getEmissionLevel (v : Vehicle) : double :=
  match v with
  | GasVehicle _ _ engineSize emissionStrategy =>
      calculateEmission emissionStrategy engineSize
  | ElectricVehicle _ _ batteryCapacity emissionStrategy =>
      calculateEmission emissionStrategy batteryCapacity
  end.

(** The strategy a vehicle was built with, and the parameter it stores. *)
Definition strategyOf (v : Vehicle) : EmissionStrategy :=
  match v with
  | GasVehicle _ _ _ s | ElectricVehicle _ _ _ s => s
  end.

Definition parameterOf (v : Vehicle) : double :=
  match v with
  | GasVehicle _ _ p _ | ElectricVehicle _ _ p _ => p
  end.

(** ** Output and exceptions *)

(** One [operator<<] insertion into a stream. *)
Inductive OutItem : Type :=
| OStr (s : string)
| ODouble (d : double)
| OInt (n : Z)
| OEndl.

(** The line feed character written as ["\n"] in the source. *)
Definition nl : string := String (ascii_of_nat 10) EmptyString.

Inductive exception : Type :=
| invalid_argument (what : string)
| out_of_range (what : string).

(** An atomic action of a thread on the shared world. *)
Inductive Event : Type :=
| Cout (o : OutItem)
| Cerr (o : OutItem)
| Lock                                   (* lock_guard constructor *)
| Store (id : string) (status : bool)    (* testResults[id] = status *)
| Unlock.                                (* lock_guard destructor *)

(** [Vehicle::displayDetails] and its two overrides (lines 47-50, 68-71,
    87-90). *)
Definition Vehicle_displayDetails (type : string) (age : Z)
    (emissionStandard : string) : list OutItem :=
  [OStr "Vehicle Type: "; OStr type; OStr (nl +:+ "Age: "); OInt age;
   OStr (nl +:+ "Emission Standard: "); OStr emissionStandard; OEndl].

Definition displayDetails (v : Vehicle) : list OutItem :=
  match v with
  | GasVehicle age emissionStandard engineSize _ =>
      Vehicle_displayDetails "Gas" age emissionStandard ++
      [OStr "Engine Size: "; ODouble engineSize; OStr " cc"; OEndl]
  | ElectricVehicle age emissionStandard batteryCapacity _ =>
      Vehicle_displayDetails "Electric" age emissionStandard ++
      [OStr "Battery Capacity: "; ODouble batteryCapacity; OStr " kWh"; OEndl]
  end.

(** ** The test record and its state machine (lines 93-177) *)

Inductive EmissionTestState : Type :=
| PendingState
| InProgressState
| CompletedState.

Record EmissionTest : Type := {
  vehicleID : string;
  state : EmissionTestState;
  complianceStatus : bool
}.

(** The constructor (lines 129-130). *)
Definition EmissionTest_new (id : string) (initialState : EmissionTestState)
    : EmissionTest :=
  {| vehicleID := id; state := initialState; complianceStatus := false |}.

Definition setState (test : EmissionTest) (newState : EmissionTestState)
    : EmissionTest :=
  {| vehicleID := vehicleID test; state := newState;
     complianceStatus := complianceStatus test |}.

Definition setComplianceStatus (test : EmissionTest) (status : bool)
    : EmissionTest :=
  {| vehicleID := vehicleID test; state := state test;
     complianceStatus := status |}.

Definition getComplianceStatus (test : EmissionTest) : bool :=
  complianceStatus test.

Definition getVehicleID (test : EmissionTest) : string := vehicleID test.

(** What a call on a test record leaves behind: the record as mutated (also
    when an exception leaves the call), the output written, and the exception
    thrown, if any. *)
Record Outcome : Type := {
  record : EmissionTest;
  trace : list Event;
  thrown : option exception
}.

(** Output written before a nested call. *)
Definition after (out : list Event) (o : Outcome) : Outcome :=
  {| record := record o; trace := out ++ trace o; thrown := thrown o |}.

(** Distance of a state from the terminal one; the recursion of
    [PendingState::handleTest] through [performTest] descends along it. *)
Definition rank (s : EmissionTestState) : nat :=
  match s with
  | PendingState => 2
  | InProgressState => 1
  | CompletedState => 0
  end.

(** [state->handleTest(test, vehicle, legalLimit)]: virtual dispatch on the
    dynamic type [self] of the state object, one clause per override
    (lines 154-177).  The call [test->performTest(vehicle, legalLimit)] of
    line 157 is the dispatch on the state just set. *)
Equations handleTest (self : EmissionTestState) (test : EmissionTest)
    (vehicle : Vehicle) (legalLimit : double) : Outcome by wf (rank self) lt :=
handleTest PendingState test vehicle legalLimit :=
  let out := [Cout (OStr "Test for "); Cout (OStr (getVehicleID test));
              Cout (OStr (" is now in progress." +:+ nl))] in
  let test := setState test InProgressState in
  after out (handleTest (state test) test vehicle legalLimit);
handleTest InProgressState test vehicle legalLimit :=
  let emissionLevel := getEmissionLevel vehicle in
  if ltb emissionLevel (of_Z 0) then
    {| record := test; trace := [];
       thrown := Some (invalid_argument "Invalid emission level.") |}
  else
    let complianceStatus := leb emissionLevel legalLimit in
    let test := setComplianceStatus test complianceStatus in
    let test := setState test CompletedState in
    {| record := test;
       trace := [Cout (OStr "Vehicle ID: "); Cout (OStr (getVehicleID test));
                 Cout (OStr " | Emission Level: "); Cout (ODouble emissionLevel);
                 Cout (OStr " | Compliance: ");
                 Cout (OStr (if complianceStatus then "Pass" else "Fail"));
                 Cout OEndl];
       thrown := None |};
handleTest CompletedState test vehicle legalLimit :=
  {| record := test;
     trace := [Cout (OStr "Test for "); Cout (OStr (getVehicleID test));
               Cout (OStr (" is already completed." +:+ nl))];
     thrown := None |}.

(** [EmissionTest::performTest] (lines 136-138). *)
Definition performTest (test : EmissionTest) (vehicle : Vehicle)
    (legalLimit : double) : Outcome :=
  handleTest (state test) test vehicle legalLimit.

(** ** The shared world and the test runner (lines 179-196) *)

(** The globals [testResults] and [resultMutex] (the thread holding it, if
    any), and the two output streams. *)
Record World : Type := {
  testResults : gmap string bool;
  resultMutex : option nat;
  cout : list OutItem;
  cerr : list OutItem
}.

(** The world at program start: an empty map, a free mutex, no output. *)
Definition World_init : World :=
  {| testResults := ∅; resultMutex := None; cout := []; cerr := [] |}.

(** Lines 188-195 of [runTest]: what follows the call of [performTest],
    given how that call ended.  On normal return the result is stored under
    the [lock_guard], which lives to the end of the [try] block; the first
    handler catches [std::invalid_argument], the second every other
    [std::exception]. *)
Definition runTest_finish (id : string) (r : Outcome) : list Event :=
  match thrown r with
  | None =>
      [Lock; Store id (getComplianceStatus (record r)); Unlock]
  | Some (invalid_argument what) =>
      [Cerr (OStr "Invalid argument for Vehicle ID "); Cerr (OStr id);
       Cerr (OStr ": "); Cerr (OStr what); Cerr OEndl]
  | Some (out_of_range what) =>
      [Cerr (OStr "Error for Vehicle ID "); Cerr (OStr id);
       Cerr (OStr ": "); Cerr (OStr what); Cerr OEndl]
  end.

(** The actions of one call of [runTest], in program order. *)
Definition runTest (vehicle : Vehicle) (id : string) (legalLimit : double)
    : list Event :=
  let test := EmissionTest_new id PendingState in
  let r := performTest test vehicle legalLimit in
  trace r ++ runTest_finish id r.

(** Thread [tid] performs one action; [None] when it cannot (a [Lock] on a
    held mutex blocks, an [Unlock] by a thread that does not hold it is
    undefined). *)
Definition perform (tid : nat) (e : Event) (w : World) : option World :=
  match e with
  | Cout o =>
      Some {| testResults := testResults w; resultMutex := resultMutex w;
              cout := cout w ++ [o]; cerr := cerr w |}
  | Cerr o =>
      Some {| testResults := testResults w; resultMutex := resultMutex w;
              cout := cout w; cerr := cerr w ++ [o] |}
  | Lock =>
      match resultMutex w with
      | None =>
          Some {| testResults := testResults w; resultMutex := Some tid;
                  cout := cout w; cerr := cerr w |}
      | Some _ => None
      end
  | Store id status =>
      Some {| testResults := <[id := status]> (testResults w);
              resultMutex := resultMutex w; cout := cout w; cerr := cerr w |}
  | Unlock =>
      if bool_decide (resultMutex w = Some tid) then
        Some {| testResults := testResults w; resultMutex := None;
                cout := cout w; cerr := cerr w |}
      else None
  end.

(** One thread running alone: its actions in order. *)
Fixpoint exec (tid : nat) (tr : list Event) (w : World) : option World :=
  match tr with
  | [] => Some w
  | e :: tr => w' ← perform tid e w; exec tid tr w'
  end.

(** ** Concurrent execution (lines 214-224) *)

(** A configuration: what each thread still has to do, and the world. *)
Definition Config : Type := list (list Event) * World.

(** Any thread whose next action is enabled may take it. *)
Inductive step : Config -> Config -> Prop :=
| step_thread (pool : list (list Event)) (w w' : World) (tid : nat)
    (e : Event) (rest : list Event) :
    pool !! tid = Some (e :: rest) ->
    perform tid e w = Some w' ->
    step (pool, w) (<[tid := rest]> pool, w').

(** Every [thread.join()] has returned. *)
Definition joined (pool : list (list Event)) : Prop :=
  Forall (fun tr => tr = []) pool.

Definition INT_MAX : Z := 2147483647.
Definition INT_MIN : Z := -2147483648.

(** [std::to_string(int)]: the decimal rendering. *)
Definition to_string (value : Z) : string := pretty value.

(** The identifier built on line 218. *)
Definition vehicleName (vehicleID : Z) : string :=
  "Vehicle_" +:+ to_string vehicleID.

(** The loop of lines 216-219: one thread per vehicle, identified by the
    counter [vehicleID].  [vehicleID++] on [INT_MAX] overflows a signed
    [int], which is undefined: [None]. *)
Fixpoint testThreads (vehicles : list Vehicle) (vehicleID : Z)
    (legalLimit : double) : option (list (list Event)) :=
  match vehicles with
  | [] => Some []
  | vehicle :: vehicles =>
      if bool_decide (vehicleID < INT_MAX) then
        threads ← testThreads vehicles (vehicleID + 1) legalLimit;
        Some (runTest vehicle (vehicleName vehicleID) legalLimit :: threads)
      else None
  end.

(** The world [w] once all tests launched from [main] over [vehicles] have
    been joined, for some interleaving of the threads.  Threads are started
    one after the other while earlier ones already run; every such execution
    is an interleaving of the full pool. *)
Definition main_tests (vehicles : list Vehicle) (legalLimit : double)
    (w : World) : Prop :=
  exists pool pool',
    testThreads vehicles 1 legalLimit = Some pool /\
    rtc step (pool, World_init) (pool', w) /\
    joined pool'.

(** The fleet and the limit of [main] (lines 201-212). *)
Definition vehicle_1 : Vehicle :=
  GasVehicle 5 "BS6" (of_Z 2000) GasEmissionStrategy.
Definition vehicle_2 : Vehicle :=
  ElectricVehicle 2 "EV" (of_Z 50) ElectricEmissionStrategy.
Definition vehicle_3 : Vehicle :=
  GasVehicle 10 "BS4" (of_Z 1500) GasEmissionStrategy.

Definition main_vehicles : list Vehicle := [vehicle_1; vehicle_2; vehicle_3].

Definition main_legalLimit : double := of_Z 180.

(** ** The vehicle-details query (lines 242-252) *)

(** How a piece of [main] ends: normally, by an exception nobody catches
    ([std::terminate] aborts the process), or in undefined behaviour. *)
Inductive Run (A : Type) : Type :=
| Returned (a : A)
| Terminated (e : exception)
| Undefined.
Arguments Returned {A} a.
Arguments Terminated {A} e.
Arguments Undefined {A}.

(** [std::string::substr(pos)]. *)
Definition substr (s : string) (pos : nat) : exception + string :=
  if bool_decide (String.length s < pos)%nat then
    inl (out_of_range "basic_string::substr")
  else inr (String.string_of_list_ascii (drop pos (String.list_ascii_of_string s))).

Definition isspace (c : ascii) : bool :=
  let n := nat_of_ascii c in
  bool_decide (n = 32 \/ 9 <= n <= 13)%nat.

Definition isdigit (c : ascii) : bool :=
  let n := nat_of_ascii c in
  bool_decide (48 <= n <= 57)%nat.

Fixpoint skip_spaces (s : list ascii) : list ascii :=
  match s with
  | c :: s' => if isspace c then skip_spaces s' else s
  | [] => []
  end.

(** The value of the longest prefix of decimal digits, continuing [acc]. *)
Fixpoint read_digits (acc : Z) (s : list ascii) : Z :=
  match s with
  | c :: s' =>
      if isdigit c then
        read_digits (10 * acc + (Z.of_nat (nat_of_ascii c) - 48)) s'
      else acc
  | [] => acc
  end.

(** [std::stoi(str)] in base 10: leading white space, an optional sign, then
    digits; what follows the digits is ignored. *)
Definition stoi (str : string) : exception + Z :=
  let s := skip_spaces (String.list_ascii_of_string str) in
  let '(negative, s) :=
    match s with
    | c :: s' =>
        if bool_decide (c = "-"%char) then (true, s')
        else if bool_decide (c = "+"%char) then (false, s')
        else (false, s)
    | [] => (false, s)
    end in
  match s with
  | c :: _ =>
      if isdigit c then
        let magnitude := read_digits 0 s in
        let value := if negative then - magnitude else magnitude in
        if bool_decide (INT_MIN <= value <= INT_MAX) then inr value
        else inl (out_of_range "stoi")
      else inl (invalid_argument "stoi")
  | [] => inl (invalid_argument "stoi")
  end.

(** Menu choice 2 once [inputID] has been read. *)
Definition main_checkVehicleDetails (vehicles : list Vehicle)
    (inputID : string) : Run (list OutItem) :=
  match substr inputID 8 with
  | inl e => Terminated e
  | inr digits =>
      match stoi digits with
      | inl e => Terminated e
      | inr n =>
          if bool_decide (n = INT_MIN) then Undefined   (* n - 1 overflows *)
          else
            let index := n - 1 in
            if bool_decide (0 <= index) &&
               bool_decide (index < Z.of_nat (length vehicles)) then
              match vehicles !! Z.to_nat index with
              | Some vehicle => Returned (displayDetails vehicle)
              | None => Undefined
              end
            else Returned [OStr "Invalid Vehicle ID."; OEndl]
      end
  end.

(** ** Notions used to state the properties *)

(** The records a program can hold: built by the constructor, then only
    ever handed to [performTest]. *)
Inductive reachable : EmissionTest -> Prop :=
| reachable_new (id : string) (initialState : EmissionTestState) :
    reachable (EmissionTest_new id initialState)
| reachable_performTest (test : EmissionTest) (vehicle : Vehicle)
    (legalLimit : double) :
    reachable test ->
    reachable (record (performTest test vehicle legalLimit)).

(** The writes to [testResults] among a thread's actions, in order. *)
Fixpoint stores (tr : list Event) : list (string * bool) :=
  match tr with
  | [] => []
  | Store id status :: tr => (id, status) :: stores tr
  | _ :: tr => stores tr
  end.

(** Writes applied to the map one after the other. *)
Definition apply_stores (l : list (string * bool)) (m : gmap string bool)
    : gmap string bool :=
  foldl (fun m kv => <[kv.1 := kv.2]> m) m l.

(** Locking discipline of a thread's remaining actions, given whether it
    holds the mutex now: it locks only what it does not hold, unlocks and
    writes only while holding, and ends without the mutex. *)
Fixpoint well_locked (held : bool) (tr : list Event) : bool :=
  match tr with
  | [] => negb held
  | Lock :: tr => negb held && well_locked true tr
  | Unlock :: tr => held && well_locked false tr
  | Store _ _ :: tr => held && well_locked held tr
  | (Cout _ | Cerr _) :: tr => well_locked held tr
  end.

(** Thread [i] writes under the key [ids !! i] only. *)
Definition owned (ids : list string) (pool : list (list Event)) : Prop :=
  forall tid tr kv,
    pool !! tid = Some tr -> kv ∈ stores tr -> ids !! tid = Some kv.1.

(** Every thread respects the locking discipline, and the mutex is held by
    a thread of the pool, if at all. *)
Definition lock_inv (c : Config) : Prop :=
  (forall tid tr, c.1 !! tid = Some tr ->
     well_locked (bool_decide (resultMutex c.2 = Some tid)) tr = true) /\
  (forall tid, resultMutex c.2 = Some tid -> is_Some (c.1 !! tid)).

(** The entries the tests over [vehicles] are to leave in [testResults],
    numbering from [vehicleID]: one per vehicle whose emission level is not
    below zero, in launch order. *)
Fixpoint entries (vehicles : list Vehicle) (vehicleID : Z)
    (legalLimit : double) : list (string * bool) :=
  match vehicles with
  | [] => []
  | vehicle :: vehicles =>
      (if ltb (getEmissionLevel vehicle) (of_Z 0) then []
       else [(vehicleName vehicleID,
              leb (getEmissionLevel vehicle) legalLimit)])
      ++ entries vehicles (vehicleID + 1) legalLimit
  end.

(** Actions still to be performed in a pool. *)
Definition remaining (pool : list (list Event)) : nat :=
  sum_list_with length pool.

(** ** Notions used to state the further properties *)

(** The configurations [main] can be in between the launch and the join. *)
Definition main_reachable (vehicles : list Vehicle) (legalLimit : double)
    (c : Config) : Prop :=
  exists pool,
    testThreads vehicles 1 legalLimit = Some pool /\
    rtc step (pool, World_init) c.

(** What a thread writes to [std::cout] and to [std::cerr], in order. *)
Fixpoint couts (tr : list Event) : list OutItem :=
  match tr with
  | [] => []
  | Cout o :: tr => o :: couts tr
  | _ :: tr => couts tr
  end.

Fixpoint cerrs (tr : list Event) : list OutItem :=
  match tr with
  | [] => []
  | Cerr o :: tr => o :: cerrs tr
  | _ :: tr => cerrs tr
  end.

(** The schedule that runs whole threads one after the other, in the given
    order. *)
Fixpoint run_in_order (order : list nat) (c : Config) : option Config :=
  match order with
  | [] => Some c
  | tid :: order =>
      tr ← c.1 !! tid;
      w ← exec tid tr c.2;
      run_in_order order (<[tid := []]> c.1, w)
  end.

(** A string that does not start with a decimal digit. *)
Definition no_digit_first (s : string) : Prop :=
  match s with
  | String c _ => isdigit c = false
  | EmptyString => True
  end.

(** The threads of [main], and their world under two schedules. *)
Definition main_pool : list (list Event) :=
  [runTest vehicle_1 (vehicleName 1) main_legalLimit;
   runTest vehicle_2 (vehicleName 2) main_legalLimit;
   runTest vehicle_3 (vehicleName 3) main_legalLimit].

Definition world_in_order (order : list nat) : World :=
  from_option snd World_init (run_in_order order (main_pool, World_init)).

(** Thread 0 of [main] holding the mutex, about to write its result. *)
Definition storing_config : Config :=
  (<[0%nat := [Store "Vehicle_1" false; Unlock]]> main_pool,
   {| testResults := ∅; resultMutex := Some 0%nat;
      cout := couts (runTest vehicle_1 (vehicleName 1) main_legalLimit);
      cerr := [] |}).

(** ** Sample data *)

(** A strategy outside the two provided ones, returning [-5] for any
    input, and a vehicle built with it. *)
Definition FaultyEmissionStrategy : EmissionStrategy :=
  {| calculateEmission := fun _ => of_Z (-5) |}.

Definition faultyVehicle : Vehicle :=
  GasVehicle 3 "BS6" (of_Z 1200) FaultyEmissionStrategy.

(** A Gas vehicle with a negative engine size. *)
Definition negativeVehicle : Vehicle :=
  GasVehicle 1 "BS6" (of_Z (-10)) GasEmissionStrategy.

(** A record whose test has completed with a failing verdict. *)
Definition completedTest : EmissionTest :=
  {| vehicleID := "Vehicle_1"; state := CompletedState;
     complianceStatus := false |}.

(** * Properties *)

(** ** Comparison of binary64 values *)

Lemma SFcompare_antisym (x y : spec_float) :
  SFcompare y x = CompOpp <$> SFcompare x y.
Proof.
  destruct x as [sx|sx| |sx mx ex], y as [sy|sy| |sy my ey]; simpl;
    try reflexivity;
    try (destruct sx; reflexivity); try (destruct sy; reflexivity);
    try (destruct sx, sy; reflexivity).
  rewrite (Z.compare_antisym ey ex).
  change (Pos.compare_cont Eq mx my) with (Pos.compare mx my).
  change (Pos.compare_cont Eq my mx) with (Pos.compare my mx).
  rewrite (Pos.compare_antisym my mx).
  destruct sx, sy; simpl; try reflexivity;
    destruct (ey ?= ex); simpl; try reflexivity;
    destruct (my ?= mx)%positive; reflexivity.
Qed.

(** [y < x] excludes [x <= y]. *)
Lemma ltb_not_leb (x y : double) : ltb y x = true -> leb x y = false.
Proof.
  unfold ltb, leb, SFltb, SFleb. rewrite (SFcompare_antisym y x).
  destruct (SFcompare y x) as [[]|]; simpl; congruence.
Qed.

(** [0 <= x] excludes [x < 0]. *)
Lemma leb_zero_not_ltb (x : double) :
  leb (of_Z 0) x = true -> ltb x (of_Z 0) = false.
Proof.
  intros H. destruct (ltb x (of_Z 0)) eqn:E; [|reflexivity].
  apply ltb_not_leb in E. congruence.
Qed.

(** ** Sign of a rounded product *)

Lemma shr_1_nonneg (mrs : shr_record) : 0 <= shr_m mrs -> 0 <= shr_m (shr_1 mrs).
Proof.
  destruct mrs as [m r s]. simpl. destruct m as [|[p|p|]|[p|p|]]; simpl; lia.
Qed.

Lemma iter_pos_shr_1_nonneg (p : positive) (mrs : shr_record) :
  0 <= shr_m mrs -> 0 <= shr_m (SpecFloat.iter_pos shr_1 p mrs).
Proof.
  revert mrs. induction p as [p IH|p IH|]; intros mrs H; simpl.
  - do 2 apply IH. apply shr_1_nonneg, H.
  - do 2 apply IH. exact H.
  - apply shr_1_nonneg, H.
Qed.

Lemma shr_fexp_nonneg (m e : Z) (l : location) :
  0 <= m -> 0 <= shr_m (fst (shr_fexp prec emax m e l)).
Proof.
  intros Hm. unfold shr_fexp, shr.
  assert (H0 : 0 <= shr_m (shr_record_of_loc m l)).
  { destruct l as [|[]]; simpl; assumption. }
  destruct (_ - e); simpl; auto using iter_pos_shr_1_nonneg.
Qed.

Lemma round_nearest_even_nonneg (m : Z) (l : location) :
  0 <= m -> 0 <= round_nearest_even m l.
Proof.
  intros Hm. destruct l as [|[]]; simpl; try lia. destruct (Z.even m); lia.
Qed.

Lemma binary_round_aux_sign (sx : bool) (mx ex : Z) :
  0 <= mx ->
  let r := binary_round_aux prec emax sx mx ex loc_Exact in
  r = S754_zero sx \/ r = S754_infinity sx \/ exists m e, r = S754_finite sx m e.
Proof.
  intros Hm. unfold binary_round_aux.
  pose proof (shr_fexp_nonneg mx ex loc_Exact Hm) as H1.
  destruct (shr_fexp prec emax mx ex loc_Exact) as [mrs' e']. simpl in H1.
  pose proof (shr_fexp_nonneg _ e' loc_Exact
                (round_nearest_even_nonneg _ (loc_of_shr_record mrs') H1)) as H2.
  destruct (shr_fexp prec emax _ e' loc_Exact) as [mrs'' e'']. simpl in H2.
  destruct (shr_m mrs'') as [|m|m]; [auto| |lia].
  destruct (e'' <=? emax - prec); eauto.
Qed.

(** ** The state machine *)

Lemma performTest_pending (test : EmissionTest) (vehicle : Vehicle)
    (legalLimit : double) :
  state test = PendingState ->
  performTest test vehicle legalLimit =
  after [Cout (OStr "Test for "); Cout (OStr (getVehicleID test));
         Cout (OStr (" is now in progress." +:+ nl))]
        (performTest (setState test InProgressState) vehicle legalLimit).
Proof.
  intros Hs. unfold performTest. rewrite Hs. reflexivity.
Qed.

Lemma performTest_inProgress_ok (test : EmissionTest) (vehicle : Vehicle)
    (legalLimit : double) :
  state test = InProgressState ->
  ltb (getEmissionLevel vehicle) (of_Z 0) = false ->
  performTest test vehicle legalLimit =
  {| record :=
       {| vehicleID := vehicleID test; state := CompletedState;
          complianceStatus := leb (getEmissionLevel vehicle) legalLimit |};
     trace :=
       [Cout (OStr "Vehicle ID: "); Cout (OStr (vehicleID test));
        Cout (OStr " | Emission Level: ");
        Cout (ODouble (getEmissionLevel vehicle));
        Cout (OStr " | Compliance: ");
        Cout (OStr (if leb (getEmissionLevel vehicle) legalLimit
                    then "Pass" else "Fail"));
        Cout OEndl];
     thrown := None |}.
Proof.
  intros Hs Hlt. unfold performTest. rewrite Hs.
  change (handleTest InProgressState test vehicle legalLimit) with
    (if ltb (getEmissionLevel vehicle) (of_Z 0) then
       {| record := test; trace := [];
          thrown := Some (invalid_argument "Invalid emission level.") |}
     else
       {| record := setState (setComplianceStatus test
                      (leb (getEmissionLevel vehicle) legalLimit))
                      CompletedState;
          trace :=
            [Cout (OStr "Vehicle ID: "); Cout (OStr (vehicleID test));
             Cout (OStr " | Emission Level: ");
             Cout (ODouble (getEmissionLevel vehicle));
             Cout (OStr " | Compliance: ");
             Cout (OStr (if leb (getEmissionLevel vehicle) legalLimit
                         then "Pass" else "Fail"));
             Cout OEndl];
          thrown := None |}).
  rewrite Hlt. reflexivity.
Qed.

Lemma performTest_inProgress_throws (test : EmissionTest) (vehicle : Vehicle)
    (legalLimit : double) :
  state test = InProgressState ->
  ltb (getEmissionLevel vehicle) (of_Z 0) = true ->
  performTest test vehicle legalLimit =
  {| record := test; trace := [];
     thrown := Some (invalid_argument "Invalid emission level.") |}.
Proof.
  intros Hs Hlt. unfold performTest. rewrite Hs.
  change (handleTest InProgressState test vehicle legalLimit) with
    (if ltb (getEmissionLevel vehicle) (of_Z 0) then
       {| record := test; trace := [];
          thrown := Some (invalid_argument "Invalid emission level.") |}
     else
       {| record := setState (setComplianceStatus test
                      (leb (getEmissionLevel vehicle) legalLimit))
                      CompletedState;
          trace :=
            [Cout (OStr "Vehicle ID: "); Cout (OStr (vehicleID test));
             Cout (OStr " | Emission Level: ");
             Cout (ODouble (getEmissionLevel vehicle));
             Cout (OStr " | Compliance: ");
             Cout (OStr (if leb (getEmissionLevel vehicle) legalLimit
                         then "Pass" else "Fail"));
             Cout OEndl];
          thrown := None |}).
  rewrite Hlt. reflexivity.
Qed.

Lemma performTest_completed (test : EmissionTest) (vehicle : Vehicle)
    (legalLimit : double) :
  state test = CompletedState ->
  performTest test vehicle legalLimit =
  {| record := test;
     trace := [Cout (OStr "Test for "); Cout (OStr (getVehicleID test));
               Cout (OStr (" is already completed." +:+ nl))];
     thrown := None |}.
Proof.
  intros Hs. unfold performTest. rewrite Hs. reflexivity.
Qed.

(** A fresh record driven through a test whose emission level is not below
    zero. *)
Lemma performTest_fresh_ok (id : string) (vehicle : Vehicle)
    (legalLimit : double) :
  ltb (getEmissionLevel vehicle) (of_Z 0) = false ->
  performTest (EmissionTest_new id PendingState) vehicle legalLimit =
  {| record :=
       {| vehicleID := id; state := CompletedState;
          complianceStatus := leb (getEmissionLevel vehicle) legalLimit |};
     trace :=
       [Cout (OStr "Test for "); Cout (OStr id);
        Cout (OStr (" is now in progress." +:+ nl));
        Cout (OStr "Vehicle ID: "); Cout (OStr id);
        Cout (OStr " | Emission Level: ");
        Cout (ODouble (getEmissionLevel vehicle));
        Cout (OStr " | Compliance: ");
        Cout (OStr (if leb (getEmissionLevel vehicle) legalLimit
                    then "Pass" else "Fail"));
        Cout OEndl];
     thrown := None |}.
Proof.
  intros Hlt. rewrite performTest_pending by reflexivity.
  rewrite performTest_inProgress_ok by (reflexivity || assumption).
  reflexivity.
Qed.

Lemma performTest_fresh_throws (id : string) (vehicle : Vehicle)
    (legalLimit : double) :
  ltb (getEmissionLevel vehicle) (of_Z 0) = true ->
  performTest (EmissionTest_new id PendingState) vehicle legalLimit =
  {| record :=
       {| vehicleID := id; state := InProgressState;
          complianceStatus := false |};
     trace :=
       [Cout (OStr "Test for "); Cout (OStr id);
        Cout (OStr (" is now in progress." +:+ nl))];
     thrown := Some (invalid_argument "Invalid emission level.") |}.
Proof.
  intros Hlt. rewrite performTest_pending by reflexivity.
  rewrite performTest_inProgress_throws by (reflexivity || assumption).
  reflexivity.
Qed.

(** ** Interleavings *)

Lemma apply_stores_app (l1 l2 : list (string * bool)) (m : gmap string bool) :
  apply_stores (l1 ++ l2) m = apply_stores l2 (apply_stores l1 m).
Proof. apply foldl_app. Qed.

Lemma apply_stores_insert_commute (l : list (string * bool)) (k : string)
    (b : bool) (m : gmap string bool) :
  k ∉ l.*1 ->
  apply_stores l (<[k := b]> m) = <[k := b]> (apply_stores l m).
Proof.
  revert m. induction l as [|[k' b'] l IH]; intros m Hk; [reflexivity|].
  apply not_elem_of_cons in Hk as [Hne Hk]. simpl in Hne.
  change (apply_stores l (<[k' := b']> (<[k := b]> m)) =
          <[k := b]> (apply_stores l (<[k' := b']> m))).
  rewrite <- IH by exact Hk. f_equal. apply insert_insert_ne. congruence.
Qed.

Lemma perform_testResults (tid : nat) (e : Event) (w w' : World) :
  perform tid e w = Some w' ->
  testResults w' = apply_stores (stores [e]) (testResults w).
Proof.
  destruct e; simpl; intros H.
  - by inversion H.
  - by inversion H.
  - destruct (resultMutex w); by inversion H.
  - by inversion H.
  - destruct (bool_decide _); by inversion H.
Qed.

Lemma stores_cons (e : Event) (rest : list Event) :
  stores (e :: rest) = stores [e] ++ stores rest.
Proof. by destruct e. Qed.

Lemma stores_tail (e : Event) (rest : list Event) (kv : string * bool) :
  kv ∈ stores rest -> kv ∈ stores (e :: rest).
Proof. destruct e; simpl; auto. intros. by right. Qed.

Lemma owned_step (ids : list string) (c c' : Config) :
  owned ids c.1 -> step c c' -> owned ids c'.1.
Proof.
  intros Hown Hstep. destruct Hstep as [pool w w' tid e rest Hl Hp]. simpl in *.
  intros j tr kv Hj Hkv. destruct (decide (tid = j)) as [->|Hne].
  - rewrite list_lookup_insert_eq in Hj by eauto using lookup_lt_Some.
    inversion Hj; subst tr. eapply Hown; [exact Hl|]. by apply stores_tail.
  - rewrite list_lookup_insert_ne in Hj by done. eauto.
Qed.

(** The map that results when all remaining writes are applied does not
    change along a step. *)
Lemma pending_step (ids : list string) (c c' : Config) :
  NoDup ids -> owned ids c.1 -> step c c' ->
  apply_stores (c'.1 ≫= stores) (testResults c'.2) =
  apply_stores (c.1 ≫= stores) (testResults c.2).
Proof.
  intros Hnd Hown Hstep.
  destruct Hstep as [pool w w' tid e rest Hl Hp]. simpl in *.
  pose proof (lookup_lt_Some _ _ _ Hl) as Hlt.
  rewrite (perform_testResults _ _ _ _ Hp).
  rewrite insert_take_drop by done.
  rewrite <- (take_drop_middle pool tid (e :: rest) Hl) at 3.
  rewrite !bind_app, !bind_cons, !apply_stores_app.
  rewrite (stores_cons e rest), apply_stores_app. do 2 f_equal.
  destruct e as [o|o| |k b|]; try reflexivity.
  change (apply_stores (take tid pool ≫= stores) (<[k := b]> (testResults w)) =
          <[k := b]> (apply_stores (take tid pool ≫= stores) (testResults w))).
  apply apply_stores_insert_commute.
  intros Hin. apply list_elem_of_fmap in Hin as ([k' b'] & -> & Hin).
  apply list_elem_of_bind in Hin as (tr & Hin & Htr).
  apply elem_of_take in Htr as (j & Hj & Hjlt).
  pose proof (Hown j tr (k', b') Hj Hin) as Hidj.
  pose proof (Hown tid _ (k', b) Hl ltac:(simpl; by left)) as Hidt.
  simpl in *. pose proof (NoDup_lookup _ _ _ _ Hnd Hidj Hidt). lia.
Qed.

Lemma joined_no_stores (pool : list (list Event)) :
  joined pool -> pool ≫= stores = [].
Proof.
  induction 1 as [|tr pool -> _ IH]; [reflexivity|].
  rewrite bind_cons, IH. reflexivity.
Qed.

(** Whatever the interleaving, once all threads are joined the map holds
    the threads' writes as if they had run one after the other. *)
Lemma interleaving_testResults (ids : list string) (c c' : Config) :
  NoDup ids -> owned ids c.1 -> rtc step c c' -> joined c'.1 ->
  testResults c'.2 = apply_stores (c.1 ≫= stores) (testResults c.2).
Proof.
  intros Hnd Hown Hrtc. induction Hrtc as [c|c c1 c' Hstep _ IH]; intros Hj.
  - rewrite joined_no_stores by done. reflexivity.
  - rewrite IH by eauto using owned_step.
    eapply pending_step; eauto.
Qed.

(** ** Locking: no deadlock, and every execution terminates *)

Lemma lock_inv_step (c c' : Config) : lock_inv c -> step c c' -> lock_inv c'.
Proof.
  intros [Hwl Hh] Hstep.
  destruct Hstep as [pool w w' tid e rest Hl Hp]. simpl in *.
  pose proof (lookup_lt_Some _ _ _ Hl) as Hlt.
  pose proof (Hwl tid _ Hl) as Hme.
  assert (Hothers : forall j tr, j <> tid ->
            <[tid := rest]> pool !! j = Some tr -> pool !! j = Some tr).
  { intros j tr Hne Hj. by rewrite list_lookup_insert_ne in Hj. }
  split; simpl.
  - intros j tr Hj. destruct (decide (j = tid)) as [->|Hne].
    + rewrite list_lookup_insert_eq in Hj by done. inversion Hj; subst tr.
      destruct e; simpl in Hp, Hme.
      * by inversion Hp.
      * by inversion Hp.
      * destruct (resultMutex w); inversion Hp; subst w'; simpl.
        rewrite bool_decide_eq_true_2 by done.
        by apply andb_prop in Hme as [_ ?].
      * inversion Hp; subst w'; simpl. by apply andb_prop in Hme as [_ ?].
      * destruct (bool_decide (resultMutex w = Some tid)); [|done].
        inversion Hp; subst w'; simpl.
        rewrite ?bool_decide_eq_false_2 by done. done.
    + apply Hothers in Hj; [|done]. pose proof (Hwl j tr Hj) as Hwj.
      destruct e; simpl in Hp.
      * by inversion Hp.
      * by inversion Hp.
      * destruct (resultMutex w) eqn:Hm; inversion Hp; subst w'; simpl.
        rewrite bool_decide_eq_false_2 in Hwj by done.
        rewrite bool_decide_eq_false_2 by congruence. done.
      * by inversion Hp.
      * destruct (bool_decide (resultMutex w = Some tid)) eqn:Hm; [|done].
        apply bool_decide_eq_true in Hm.
        inversion Hp; subst w'; simpl.
        rewrite bool_decide_eq_false_2 in Hwj by congruence.
        rewrite ?bool_decide_eq_false_2 by done. done.
  - intros h Hm. apply lookup_lt_is_Some. rewrite length_insert.
    destruct e; simpl in Hp.
    + inversion Hp; subst w'; simpl in Hm. by apply lookup_lt_is_Some, Hh.
    + inversion Hp; subst w'; simpl in Hm. by apply lookup_lt_is_Some, Hh.
    + destruct (resultMutex w); inversion Hp; subst w'; simpl in Hm.
      by inversion Hm; subst h.
    + inversion Hp; subst w'; simpl in Hm. by apply lookup_lt_is_Some, Hh.
    + destruct (bool_decide _); [|done]. by inversion Hp; subst w'.
Qed.

Lemma joined_or_active (pool : list (list Event)) :
  joined pool \/ exists tid e rest, pool !! tid = Some (e :: rest).
Proof.
  induction pool as [|tr pool [IH|(tid & e & rest & IH)]].
  - left. constructor.
  - destruct tr as [|e rest].
    + left. by constructor.
    + right. by exists 0%nat, e, rest.
  - right. by exists (S tid), e, rest.
Qed.

(** A configuration that is not joined can take a step: the mutex never
    leaves all threads blocked. *)
Lemma progress (c : Config) :
  lock_inv c -> joined c.1 \/ exists c', step c c'.
Proof.
  destruct c as [pool w]. intros [Hwl Hh]. simpl in *.
  destruct (joined_or_active pool) as [?|(tid & e & rest & Hl)]; [by left|].
  right. destruct (resultMutex w) as [h|] eqn:Hm.
  - destruct (Hh h eq_refl) as [tr Hhl]. pose proof (Hwl h tr Hhl) as Hw.
    rewrite bool_decide_eq_true_2 in Hw by done.
    destruct tr as [|e' rest']; [done|].
    assert (is_Some (perform h e' w)) as [w' Hp].
    { destruct e'; simpl in *; try done.
      by rewrite Hm, bool_decide_eq_true_2. }
    eexists. by eapply step_thread.
  - pose proof (Hwl tid _ Hl) as Hw.
    rewrite bool_decide_eq_false_2 in Hw by congruence.
    assert (is_Some (perform tid e w)) as [w' Hp].
    { destruct e; simpl in *; try done. by rewrite Hm. }
    eexists. by eapply step_thread.
Qed.

Lemma remaining_step (c c' : Config) :
  step c c' -> remaining c.1 = S (remaining c'.1).
Proof.
  intros Hstep. destruct Hstep as [pool w w' tid e rest Hl Hp]. simpl.
  pose proof (lookup_lt_Some _ _ _ Hl) as Hlt. unfold remaining.
  rewrite insert_take_drop by done.
  rewrite <- (take_drop_middle pool tid (e :: rest) Hl) at 1.
  rewrite !sum_list_with_app. simpl. lia.
Qed.

(** Every execution reaches the join, in exactly [remaining] steps. *)
Lemma run_to_join (c : Config) :
  lock_inv c -> exists c', rtc step c c' /\ joined c'.1.
Proof.
  remember (remaining c.1) as n eqn:Hn. revert c Hn.
  induction n as [|n IH]; intros c Hn Hinv.
  - destruct (progress c Hinv) as [?|[c' Hstep]]; [by exists c|].
    apply remaining_step in Hstep. lia.
  - destruct (progress c Hinv) as [?|[c1 Hstep]]; [by exists c|].
    destruct (IH c1) as (c' & Hrtc & Hj).
    + apply remaining_step in Hstep. lia.
    + eauto using lock_inv_step.
    + exists c'. split; [|done]. by eapply rtc_l.
Qed.

(** ** One call of [runTest] *)

Lemma runTest_ok (vehicle : Vehicle) (id : string) (legalLimit : double) :
  ltb (getEmissionLevel vehicle) (of_Z 0) = false ->
  runTest vehicle id legalLimit =
  trace (performTest (EmissionTest_new id PendingState) vehicle legalLimit) ++
  [Lock; Store id (leb (getEmissionLevel vehicle) legalLimit); Unlock].
Proof.
  intros Hlt. unfold runTest, runTest_finish.
  rewrite performTest_fresh_ok by exact Hlt. reflexivity.
Qed.

Lemma runTest_throws (vehicle : Vehicle) (id : string) (legalLimit : double) :
  ltb (getEmissionLevel vehicle) (of_Z 0) = true ->
  runTest vehicle id legalLimit =
  [Cout (OStr "Test for "); Cout (OStr id);
   Cout (OStr (" is now in progress." +:+ nl));
   Cerr (OStr "Invalid argument for Vehicle ID "); Cerr (OStr id);
   Cerr (OStr ": "); Cerr (OStr "Invalid emission level."); Cerr OEndl].
Proof.
  intros Hlt. unfold runTest, runTest_finish.
  rewrite performTest_fresh_throws by exact Hlt. reflexivity.
Qed.

Lemma stores_runTest (vehicle : Vehicle) (id : string) (legalLimit : double) :
  stores (runTest vehicle id legalLimit) =
  if ltb (getEmissionLevel vehicle) (of_Z 0) then []
  else [(id, leb (getEmissionLevel vehicle) legalLimit)].
Proof.
  destruct (ltb (getEmissionLevel vehicle) (of_Z 0)) eqn:Hlt.
  - rewrite runTest_throws by exact Hlt. reflexivity.
  - rewrite runTest_ok, performTest_fresh_ok by exact Hlt. reflexivity.
Qed.

Lemma well_locked_runTest (vehicle : Vehicle) (id : string)
    (legalLimit : double) :
  well_locked false (runTest vehicle id legalLimit) = true.
Proof.
  destruct (ltb (getEmissionLevel vehicle) (of_Z 0)) eqn:Hlt.
  - rewrite runTest_throws by exact Hlt. reflexivity.
  - rewrite runTest_ok, performTest_fresh_ok by exact Hlt. reflexivity.
Qed.

(** ** The launch loop *)

Lemma vehicleName_inj (a b : Z) : vehicleName a = vehicleName b -> a = b.
Proof.
  unfold vehicleName, to_string. intros H. simpl in H.
  injection H as H. by apply (inj pretty).
Qed.

Lemma testThreads_is_Some (vehicles : list Vehicle) (vehicleID : Z)
    (legalLimit : double) :
  vehicleID + Z.of_nat (length vehicles) <= INT_MAX ->
  is_Some (testThreads vehicles vehicleID legalLimit).
Proof.
  revert vehicleID.
  induction vehicles as [|v vehicles IH]; intros vehicleID Hb; simpl in *.
  - by eexists.
  - rewrite bool_decide_eq_true_2 by lia.
    destruct (IH (vehicleID + 1)) as [pool ->]; [lia|]. by eexists.
Qed.

Lemma testThreads_lookup (vehicles : list Vehicle) (vehicleID : Z)
    (legalLimit : double) (pool : list (list Event)) (i : nat) :
  testThreads vehicles vehicleID legalLimit = Some pool ->
  pool !! i =
  (fun v => runTest v (vehicleName (vehicleID + Z.of_nat i)) legalLimit)
    <$> vehicles !! i.
Proof.
  revert vehicleID pool i.
  induction vehicles as [|v vehicles IH]; intros vehicleID pool i H;
    simpl in H.
  - by inversion H.
  - destruct (bool_decide (vehicleID < INT_MAX)); [|done].
    destruct (testThreads vehicles (vehicleID + 1) legalLimit) as [threads|]
      eqn:Ht; [|done].
    inversion H; subst pool. destruct i as [|i]; simpl.
    + by rewrite Z.add_0_r.
    + rewrite (IH _ _ i Ht).
      by replace (vehicleID + Z.of_nat (S i)) with (vehicleID + 1 + Z.of_nat i)
        by lia.
Qed.

Lemma testThreads_stores (vehicles : list Vehicle) (vehicleID : Z)
    (legalLimit : double) (pool : list (list Event)) :
  testThreads vehicles vehicleID legalLimit = Some pool ->
  pool ≫= stores = entries vehicles vehicleID legalLimit.
Proof.
  revert vehicleID pool.
  induction vehicles as [|v vehicles IH]; intros vehicleID pool H;
    simpl in H.
  - by inversion H.
  - destruct (bool_decide (vehicleID < INT_MAX)); [|done].
    destruct (testThreads vehicles (vehicleID + 1) legalLimit) as [threads|]
      eqn:Ht; [|done].
    inversion H; subst pool.
    rewrite bind_cons, stores_runTest, (IH _ _ Ht). reflexivity.
Qed.

Lemma testThreads_owned (vehicles : list Vehicle) (vehicleID : Z)
    (legalLimit : double) (pool : list (list Event)) :
  testThreads vehicles vehicleID legalLimit = Some pool ->
  owned ((fun i => vehicleName (vehicleID + Z.of_nat i))
           <$> seq 0 (length vehicles)) pool.
Proof.
  intros H tid tr kv Hl Hkv.
  rewrite (testThreads_lookup _ _ _ _ tid H) in Hl.
  destruct (vehicles !! tid) as [v|] eqn:Hv; [|done].
  inversion Hl; subst tr. rewrite stores_runTest in Hkv.
  rewrite list_lookup_fmap, lookup_seq_lt by eauto using lookup_lt_Some.
  destruct (ltb _ _); [by apply elem_of_nil in Hkv|].
  apply list_elem_of_singleton in Hkv as ->. reflexivity.
Qed.

Lemma NoDup_vehicleNames (vehicleID : Z) (n : nat) :
  NoDup ((fun i => vehicleName (vehicleID + Z.of_nat i)) <$> seq 0 n).
Proof.
  apply NoDup_fmap_2_strong; [|apply NoDup_seq].
  intros i j _ _ H. apply vehicleName_inj in H. lia.
Qed.

Lemma testThreads_lock_inv (vehicles : list Vehicle) (vehicleID : Z)
    (legalLimit : double) (pool : list (list Event)) :
  testThreads vehicles vehicleID legalLimit = Some pool ->
  lock_inv (pool, World_init).
Proof.
  intros H. split; simpl; [|done]. intros tid tr Hl.
  rewrite (testThreads_lookup _ _ _ _ tid H) in Hl.
  destruct (vehicles !! tid) as [v|]; [|done].
  inversion Hl. apply well_locked_runTest.
Qed.

(** ** The map after a sequence of writes *)

Lemma lookup_apply_stores_notin (l : list (string * bool))
    (m : gmap string bool) (k : string) :
  k ∉ l.*1 -> apply_stores l m !! k = m !! k.
Proof.
  revert m. induction l as [|[k' b'] l IH]; intros m Hk; [reflexivity|].
  apply not_elem_of_cons in Hk as [Hne Hk]. simpl in Hne.
  change (apply_stores l (<[k' := b']> m) !! k = m !! k).
  rewrite IH by exact Hk. by apply lookup_insert_ne.
Qed.

Lemma lookup_apply_stores_in (l : list (string * bool))
    (m : gmap string bool) (k : string) (b : bool) :
  NoDup l.*1 -> (k, b) ∈ l -> apply_stores l m !! k = Some b.
Proof.
  revert m. induction l as [|[k' b'] l IH]; intros m Hnd Hin.
  - by apply elem_of_nil in Hin.
  - apply NoDup_cons in Hnd as [Hk' Hnd].
    change (apply_stores l (<[k' := b']> m) !! k = Some b).
    apply elem_of_cons in Hin as [Heq|Hin].
    + inversion Heq; subst k' b'.
      rewrite lookup_apply_stores_notin by exact Hk'.
      apply lookup_insert_eq.
    + by apply IH.
Qed.

Lemma size_apply_stores (l : list (string * bool)) (m : gmap string bool) :
  NoDup l.*1 -> (forall k, k ∈ l.*1 -> m !! k = None) ->
  size (apply_stores l m) = (length l + size m)%nat.
Proof.
  revert m. induction l as [|[k' b'] l IH]; intros m Hnd Hfresh;
    [reflexivity|].
  apply NoDup_cons in Hnd as [Hk' Hnd].
  change (size (apply_stores l (<[k' := b']> m)) = (S (length l) + size m)%nat).
  rewrite IH; [| exact Hnd |].
  - rewrite map_size_insert_None; [lia|]. apply Hfresh. by left.
  - intros k Hk. rewrite lookup_insert_ne; [apply Hfresh; by right|].
    intros ->. contradiction.
Qed.

(** ** The expected entries *)

Lemma elem_of_entries (vehicles : list Vehicle) (vehicleID : Z)
    (legalLimit : double) (kv : string * bool) :
  kv ∈ entries vehicles vehicleID legalLimit <->
  exists i v, vehicles !! i = Some v /\
    ltb (getEmissionLevel v) (of_Z 0) = false /\
    kv = (vehicleName (vehicleID + Z.of_nat i),
          leb (getEmissionLevel v) legalLimit).
Proof.
  revert vehicleID. induction vehicles as [|v vehicles IH]; intros vehicleID.
  - simpl. split; [intros H; by apply elem_of_nil in H|].
    by intros (i & w & H & _).
  - cbn [entries]. rewrite elem_of_app, IH. split.
    + intros [H|(i & w & Hl & Hlt & ->)].
      * destruct (ltb (getEmissionLevel v) (of_Z 0)) eqn:Hlt;
          [by apply elem_of_nil in H|].
        apply list_elem_of_singleton in H as ->.
        exists 0%nat, v. by rewrite Z.add_0_r.
      * exists (S i), w. repeat split; [done..|]. do 2 f_equal. lia.
    + intros ([|i] & w & Hl & Hlt & ->); simpl in Hl.
      * inversion Hl; subst w. left. rewrite Hlt, Z.add_0_r.
        by apply list_elem_of_singleton.
      * right. exists i, w. repeat split; [done..|]. do 2 f_equal. lia.
Qed.

Lemma NoDup_entries (vehicles : list Vehicle) (vehicleID : Z)
    (legalLimit : double) :
  NoDup (entries vehicles vehicleID legalLimit).*1.
Proof.
  revert vehicleID. induction vehicles as [|v vehicles IH]; intros vehicleID.
  - constructor.
  - cbn [entries]. rewrite fmap_app. apply NoDup_app. repeat split.
    + destruct (ltb _ _); [constructor|]. apply NoDup_singleton.
    + intros k Hk Hin. destruct (ltb _ _); [by apply elem_of_nil in Hk|].
      apply list_elem_of_singleton in Hk as ->.
      apply list_elem_of_fmap in Hin as (kv & Hk & Hin).
      apply elem_of_entries in Hin as (i & w & _ & _ & ->). simpl in Hk.
      apply vehicleName_inj in Hk. lia.
    + apply IH.
Qed.

Lemma length_entries (vehicles : list Vehicle) (vehicleID : Z)
    (legalLimit : double) :
  length (entries vehicles vehicleID legalLimit) =
  length (filter (fun v => ltb (getEmissionLevel v) (of_Z 0) = false) vehicles).
Proof.
  revert vehicleID. induction vehicles as [|v vehicles IH]; intros vehicleID;
    [reflexivity|].
  cbn [entries]. rewrite length_app, IH, filter_cons.
  destruct (ltb (getEmissionLevel v) (of_Z 0)); reflexivity.
Qed.

(** ** The tests launched from [main] *)

Lemma main_tests_exists (vehicles : list Vehicle) (legalLimit : double) :
  Z.of_nat (length vehicles) < INT_MAX ->
  exists w, main_tests vehicles legalLimit w.
Proof.
  intros Hb.
  destruct (testThreads_is_Some vehicles 1 legalLimit) as [pool Hp]; [lia|].
  destruct (run_to_join (pool, World_init)) as ([pool' w] & Hrtc & Hj).
  { by eapply testThreads_lock_inv. }
  exists w, pool, pool'. done.
Qed.

Lemma main_tests_testResults (vehicles : list Vehicle) (legalLimit : double)
    (w : World) :
  main_tests vehicles legalLimit w ->
  testResults w = apply_stores (entries vehicles 1 legalLimit) ∅.
Proof.
  intros (pool & pool' & Hp & Hrtc & Hj).
  rewrite <- (testThreads_stores _ _ _ _ Hp).
  apply (interleaving_testResults _ (pool, World_init) (pool', w)
           (NoDup_vehicleNames 1 (length vehicles))); [|done..].
  by eapply testThreads_owned.
Qed.

Lemma main_tests_lookup (vehicles : list Vehicle) (legalLimit : double)
    (w : World) (i : nat) (v : Vehicle) :
  main_tests vehicles legalLimit w ->
  vehicles !! i = Some v ->
  testResults w !! vehicleName (1 + Z.of_nat i) =
  if ltb (getEmissionLevel v) (of_Z 0) then None
  else Some (leb (getEmissionLevel v) legalLimit).
Proof.
  intros Hm Hv. rewrite (main_tests_testResults _ _ _ Hm).
  destruct (ltb (getEmissionLevel v) (of_Z 0)) eqn:Hlt.
  - rewrite lookup_apply_stores_notin; [apply lookup_empty|].
    intros Hin. apply list_elem_of_fmap in Hin as (kv & Hk & Hin).
    apply elem_of_entries in Hin as (j & v' & Hv' & Hlt' & ->). simpl in Hk.
    apply vehicleName_inj in Hk. assert (j = i) as -> by lia. congruence.
  - apply lookup_apply_stores_in; [apply NoDup_entries|].
    apply elem_of_entries. eauto.
Qed.

Lemma main_tests_size (vehicles : list Vehicle) (legalLimit : double)
    (w : World) :
  main_tests vehicles legalLimit w ->
  size (testResults w) =
  length (filter (fun v => ltb (getEmissionLevel v) (of_Z 0) = false) vehicles).
Proof.
  intros Hm. rewrite (main_tests_testResults _ _ _ Hm).
  rewrite size_apply_stores, length_entries, map_size_empty; [lia|..].
  - apply NoDup_entries.
  - intros. apply lookup_empty.
Qed.

Lemma performTest_fresh_thrown (id : string) (vehicle : Vehicle)
    (legalLimit : double) :
  thrown (performTest (EmissionTest_new id PendingState) vehicle legalLimit) =
  if ltb (getEmissionLevel vehicle) (of_Z 0)
  then Some (invalid_argument "Invalid emission level.") else None.
Proof.
  destruct (ltb (getEmissionLevel vehicle) (of_Z 0)) eqn:Hlt.
  - by rewrite performTest_fresh_throws.
  - by rewrite performTest_fresh_ok.
Qed.

Lemma length_filter_Forall {A} (P : A -> Prop) `{!forall x, Decision (P x)}
    (l : list A) :
  Forall P l -> length (filter P l) = length l.
Proof.
  induction 1 as [|x l HP _ IH]; [reflexivity|].
  rewrite filter_cons, decide_True by done. simpl. by rewrite IH.
Qed.


(** The product of a value that is at least zero with [0.1] is at least
    zero: rounding keeps the sign, and neither factor is a NaN. *)
Lemma mul_tenth_nonneg (p : double) :
  leb (of_Z 0) p = true -> leb (of_Z 0) (mul p tenth) = true.
Proof.
  destruct p as [s|[]| |[] m e]; try discriminate; intros _.
  - reflexivity.
  - reflexivity.
  - unfold mul, tenth, SFmul.
    destruct (binary_round_aux_sign (xorb false false)
                (Zpos (m * 7205759403792794)) (e + -56) ltac:(lia))
      as [-> | [-> | (m' & e' & ->)]]; reflexivity.
Qed.

(** A write to the map is only ever the next action of the thread that
    holds the mutex. *)
Lemma store_holds_mutex (c : Config) (tid : nat) (id : string)
    (status : bool) (rest : list Event) :
  lock_inv c ->
  c.1 !! tid = Some (Store id status :: rest) ->
  resultMutex c.2 = Some tid.
Proof.
  intros [Hwl _] Hl. pose proof (Hwl tid _ Hl) as Hw. cbn [well_locked] in Hw.
  apply andb_prop in Hw as [Hheld _]. by apply bool_decide_eq_true in Hheld.
Qed.

Lemma lock_inv_rtc (c c' : Config) : lock_inv c -> rtc step c c' -> lock_inv c'.
Proof. induction 2; eauto using lock_inv_step. Qed.

Lemma exec_app (tid : nat) (tr1 tr2 : list Event) (w : World) :
  exec tid (tr1 ++ tr2) w = exec tid tr1 w ≫= exec tid tr2.
Proof.
  revert w. induction tr1 as [|e tr1 IH]; intros w; [reflexivity|].
  cbn [app exec]. destruct (perform tid e w) as [w'|]; [apply IH|reflexivity].
Qed.

(** Output alone always runs, and touches neither the map nor the mutex. *)
Lemma exec_output (tid : nat) (tr : list Event) (w : World) :
  Forall (fun e => exists o, e = Cout o \/ e = Cerr o) tr ->
  exists w', exec tid tr w = Some w' /\
             testResults w' = testResults w /\
             resultMutex w' = resultMutex w.
Proof.
  intros Hout. revert w.
  induction Hout as [|e tr (o & [-> | ->]) _ IH]; intros w.
  - by exists w.
  - destruct (IH {| testResults := testResults w;
                    resultMutex := resultMutex w;
                    cout := cout w ++ [o]; cerr := cerr w |})
      as (w' & Hw' & Hr & Hm).
    exists w'. by repeat split.
  - destruct (IH {| testResults := testResults w;
                    resultMutex := resultMutex w;
                    cout := cout w; cerr := cerr w ++ [o] |})
      as (w' & Hw' & Hr & Hm).
    exists w'. by repeat split.
Qed.

(** One successful test run alone on a world with a free mutex adds its
    verdict under its identifier and frees the mutex again. *)
Lemma exec_runTest_ok (tid : nat) (vehicle : Vehicle) (id : string)
    (legalLimit : double) (w : World) :
  ltb (getEmissionLevel vehicle) (of_Z 0) = false ->
  resultMutex w = None ->
  exists w',
    exec tid (runTest vehicle id legalLimit) w = Some w' /\
    testResults w' =
      <[id := leb (getEmissionLevel vehicle) legalLimit]> (testResults w) /\
    resultMutex w' = None.
Proof.
  intros Hlt Hm. rewrite runTest_ok, performTest_fresh_ok by exact Hlt.
  cbn [trace]. rewrite exec_app.
  edestruct (exec_output tid) as (w1 & -> & Hr & Hm1).
  { repeat (constructor; [eexists; left; reflexivity|]). constructor. }
  rewrite Hm in Hm1. cbn [mbind option_bind exec perform]. rewrite Hm1.
  cbn [mbind option_bind resultMutex].
  rewrite bool_decide_eq_true_2 by reflexivity.
  eexists. split; [reflexivity|]. cbn [testResults resultMutex].
  by rewrite Hr.
Qed.

(** ** Scenarios *)

Example tenth_valid : valid tenth = true.
Proof. reflexivity. Qed.

Example to_string_12 : to_string 12 = "12" /\ vehicleName 3 = "Vehicle_3".
Proof. split; reflexivity. Qed.

Example stoi_examples :
  stoi "42" = inr 42 /\ stoi " -7xyz" = inr (-7) /\ stoi "+3" = inr 3 /\
  stoi "" = inl (invalid_argument "stoi") /\
  stoi "x1" = inl (invalid_argument "stoi") /\
  stoi "2147483648" = inl (out_of_range "stoi") /\
  stoi "-2147483648" = inr INT_MIN.
Proof. repeat split. Qed.

(** Gas, displacement 2000: emission 200, over the limit 180. *)
Example scenario_gas_2000 :
  getEmissionLevel vehicle_1 = of_Z 200 /\
  stores (runTest vehicle_1 "Vehicle_1" main_legalLimit) =
  [("Vehicle_1", false)].
Proof. split; reflexivity. Qed.

(** Electric, capacity 50: emission 0, within the limit. *)
Example scenario_electric_50 :
  getEmissionLevel vehicle_2 = of_Z 0 /\
  stores (runTest vehicle_2 "Vehicle_2" main_legalLimit) =
  [("Vehicle_2", true)].
Proof. split; reflexivity. Qed.

(** Gas, displacement 1500: emission 150, within the limit. *)
Example scenario_gas_1500 :
  getEmissionLevel vehicle_3 = of_Z 150 /\
  stores (runTest vehicle_3 "Vehicle_3" main_legalLimit) =
  [("Vehicle_3", true)].
Proof. split; reflexivity. Qed.

(** Gas, displacement 1800: emission exactly at the limit 180 passes. *)
Example scenario_at_the_limit :
  getEmissionLevel (GasVehicle 4 "BS6" (of_Z 1800) GasEmissionStrategy) =
  main_legalLimit /\
  stores (runTest (GasVehicle 4 "BS6" (of_Z 1800) GasEmissionStrategy)
            "Vehicle_1" main_legalLimit) =
  [("Vehicle_1", true)].
Proof. split; reflexivity. Qed.

(** A strategy returning [-5]: the test fails and nothing is stored. *)
Example scenario_faulty_strategy :
  runTest faultyVehicle "Vehicle_4" main_legalLimit =
  [Cout (OStr "Test for "); Cout (OStr "Vehicle_4");
   Cout (OStr (" is now in progress." +:+ nl));
   Cerr (OStr "Invalid argument for Vehicle ID "); Cerr (OStr "Vehicle_4");
   Cerr (OStr ": "); Cerr (OStr "Invalid emission level."); Cerr OEndl].
Proof. reflexivity. Qed.

(** The result map of [main], whatever the interleaving. *)
Example main_testResults (w : World) :
  main_tests main_vehicles main_legalLimit w ->
  testResults w =
  <["Vehicle_3" := true]> (<["Vehicle_2" := true]>
    (<["Vehicle_1" := false]> ∅)).
Proof. intros Hm. by rewrite (main_tests_testResults _ _ _ Hm). Qed.

(** A well-formed identifier of a vehicle that does not exist gets the
    message of line 251. *)
Example main_checkVehicleDetails_unknown :
  main_checkVehicleDetails main_vehicles "Vehicle_9" =
    Returned [OStr "Invalid Vehicle ID."; OEndl] /\
  main_checkVehicleDetails main_vehicles "Vehicle_0" =
    Returned [OStr "Invalid Vehicle ID."; OEndl] /\
  main_checkVehicleDetails main_vehicles "Vehicle_3" =
    Returned (displayDetails vehicle_3).
Proof. repeat split. Qed.

(** * Main theorems *)

(** C1.  For every vehicle whose emission level is non-negative,
    [performTest] on a fresh record returns normally, leaves the record
    [Completed], and sets the verdict to [emissionLevel <= legalLimit]:
    true when the level is at most the limit (equality included), false
    when it is strictly greater. *)
Theorem performTest_compliance (vehicle : Vehicle) (legalLimit : double)
    (id : string) :
  leb (of_Z 0) (getEmissionLevel vehicle) = true ->
  let r := performTest (EmissionTest_new id PendingState) vehicle legalLimit in
  thrown r = None /\
  state (record r) = CompletedState /\
  getComplianceStatus (record r) = leb (getEmissionLevel vehicle) legalLimit /\
  (leb (getEmissionLevel vehicle) legalLimit = true ->
   getComplianceStatus (record r) = true) /\
  (eqb (getEmissionLevel vehicle) legalLimit = true ->
   getComplianceStatus (record r) = true) /\
  (ltb legalLimit (getEmissionLevel vehicle) = true ->
   getComplianceStatus (record r) = false).
Proof.
  intros Hnn. apply leb_zero_not_ltb in Hnn.
  rewrite performTest_fresh_ok by exact Hnn. cbn [record thrown state].
  unfold getComplianceStatus. cbn [complianceStatus].
  repeat split; try done.
  - unfold leb, eqb, SFleb, SFeqb.
    destruct (SFcompare _ _) as [[]|]; done.
  - apply ltb_not_leb.
Qed.

(** C2.  For every vehicle whose emission level is strictly negative, the
    step from [InProgress] throws [std::invalid_argument] to the caller and
    leaves the record as it was; on a fresh record, [performTest] throws
    with the record in [InProgress] and the verdict never written. *)
Theorem performTest_negative_emission (vehicle : Vehicle)
    (legalLimit : double) :
  ltb (getEmissionLevel vehicle) (of_Z 0) = true ->
  (forall test, state test = InProgressState ->
     performTest test vehicle legalLimit =
     {| record := test; trace := [];
        thrown := Some (invalid_argument "Invalid emission level.") |}) /\
  (forall id,
     let r := performTest (EmissionTest_new id PendingState) vehicle legalLimit in
     thrown r = Some (invalid_argument "Invalid emission level.") /\
     state (record r) = InProgressState /\
     getComplianceStatus (record r) = false /\
     stores (trace r) = []).
Proof.
  intros Hlt. split.
  - intros test Hs. by apply performTest_inProgress_throws.
  - intros id. by rewrite performTest_fresh_throws.
Qed.

(** C3.  A test execution that fails writes no entry: its thread performs
    no write to the result map, whatever the exception; run on any world
    it leaves the map as it was; and in a run of [main] the key of a failed
    test is missing, which differs from a [false] entry, while every test
    that completed has its entry. *)
Theorem runTest_failure_no_entry (vehicle : Vehicle) (id : string)
    (legalLimit : double) :
  thrown (performTest (EmissionTest_new id PendingState) vehicle legalLimit)
    <> None ->
  stores (runTest vehicle id legalLimit) = [] /\
  (forall r, thrown r <> None -> stores (runTest_finish id r) = []) /\
  (forall tid w, exists w',
     exec tid (runTest vehicle id legalLimit) w = Some w' /\
     testResults w' = testResults w) /\
  (forall vehicles i w,
     vehicles !! i = Some vehicle ->
     main_tests vehicles legalLimit w ->
     testResults w !! vehicleName (1 + Z.of_nat i) = None /\
     testResults w !! vehicleName (1 + Z.of_nat i) <> Some false /\
     forall j v,
       vehicles !! j = Some v ->
       thrown (performTest (EmissionTest_new (vehicleName (1 + Z.of_nat j))
                              PendingState) v legalLimit) = None ->
       testResults w !! vehicleName (1 + Z.of_nat j) =
       Some (leb (getEmissionLevel v) legalLimit)).
Proof.
  rewrite performTest_fresh_thrown. intros Hthrown.
  destruct (ltb (getEmissionLevel vehicle) (of_Z 0)) eqn:Hlt; [|done].
  split; [|split; [|split]].
  - by rewrite stores_runTest, Hlt.
  - intros r Hr. unfold runTest_finish.
    destruct (thrown r) as [[]|]; done.
  - intros tid w. rewrite runTest_throws by exact Hlt.
    eexists. split; reflexivity.
  - intros vehicles i w Hi Hm.
    rewrite (main_tests_lookup _ _ _ _ _ Hm Hi), Hlt.
    split; [reflexivity|]. split; [discriminate|].
    intros j v Hj Hok. rewrite performTest_fresh_thrown in Hok.
    rewrite (main_tests_lookup _ _ _ _ _ Hm Hj).
    by destruct (ltb (getEmissionLevel v) (of_Z 0)).
Qed.

(** C4.  On a record in [Completed], [performTest] only reports "already
    completed": the record is returned as it is (state and verdict), the
    outcome does not depend on the vehicle or the limit, and a further call
    changes nothing either. *)
Theorem performTest_completed_idempotent (test : EmissionTest)
    (vehicle : Vehicle) (legalLimit : double) :
  state test = CompletedState ->
  performTest test vehicle legalLimit =
  {| record := test;
     trace := [Cout (OStr "Test for "); Cout (OStr (getVehicleID test));
               Cout (OStr (" is already completed." +:+ nl))];
     thrown := None |} /\
  (forall vehicle' legalLimit',
     performTest test vehicle' legalLimit' =
     performTest test vehicle legalLimit) /\
  (forall vehicle' legalLimit',
     record (performTest (record (performTest test vehicle legalLimit))
               vehicle' legalLimit') = test).
Proof.
  intros Hs. repeat split.
  - by apply performTest_completed.
  - intros. by rewrite !performTest_completed by exact Hs.
  - intros. rewrite (performTest_completed test) by exact Hs.
    cbn [record]. by rewrite performTest_completed by exact Hs.
Qed.

(** C5.  A run of [main] over N vehicles (N below [INT_MAX], so that the
    counter of line 216 stays an [int]) reaches the join, and then, whatever
    the interleaving: if every emission level is non-negative, the result
    map has exactly N entries, one under each identifier; if some emission
    level is negative, it has fewer than N entries and none for a failed
    test. *)
Theorem main_tests_entry_count (vehicles : list Vehicle)
    (legalLimit : double) :
  Z.of_nat (length vehicles) < INT_MAX ->
  (exists w, main_tests vehicles legalLimit w) /\
  forall w, main_tests vehicles legalLimit w ->
    (Forall (fun v => leb (of_Z 0) (getEmissionLevel v) = true) vehicles ->
     size (testResults w) = length vehicles /\
     forall i v, vehicles !! i = Some v ->
       testResults w !! vehicleName (1 + Z.of_nat i) =
       Some (leb (getEmissionLevel v) legalLimit)) /\
    (Exists (fun v => ltb (getEmissionLevel v) (of_Z 0) = true) vehicles ->
     (size (testResults w) < length vehicles)%nat /\
     forall i v, vehicles !! i = Some v ->
       ltb (getEmissionLevel v) (of_Z 0) = true ->
       testResults w !! vehicleName (1 + Z.of_nat i) = None).
Proof.
  intros Hb. split; [by apply main_tests_exists|].
  intros w Hm. split.
  - intros Hall.
    assert (Hall' : Forall (fun v => ltb (getEmissionLevel v) (of_Z 0) = false)
                      vehicles).
    { eapply Forall_impl; [exact Hall|]. intros v. apply leb_zero_not_ltb. }
    split.
    + rewrite (main_tests_size _ _ _ Hm). by apply length_filter_Forall.
    + intros i v Hv. rewrite (main_tests_lookup _ _ _ _ _ Hm Hv).
      rewrite Forall_lookup in Hall'. by rewrite (Hall' i v Hv).
  - intros Hex. apply Exists_exists in Hex as (v & Hin & Hlt). split.
    + rewrite (main_tests_size _ _ _ Hm).
      apply (length_filter_lt _ _ v Hin). congruence.
    + intros i v' Hv' Hlt'.
      by rewrite (main_tests_lookup _ _ _ _ _ Hm Hv'), Hlt'.
Qed.

(** C6.  The Gas strategy returns its parameter times [0.1]: the IEEE 754
    binary64 product ([SFmul] at precision 53, maximal exponent 1024) of the
    parameter with [0x1.999999999999ap-4], the binary64 quotient of 1 by 10.
    For a finite parameter that is the exact product of the mantissas,
    rounded to nearest even; zeros and infinities keep their sign, a NaN
    stays a NaN; 2000 gives 200 and 1500 gives 150.  The Electric strategy
    returns [+0] whatever the parameter.  Vehicles pass their stored
    parameter to the strategy they hold. *)
Theorem strategies_calculateEmission (p : double) :
  calculateEmission GasEmissionStrategy p =
    SFmul 53 1024 p (S754_finite false 7205759403792794 (-56)) /\
  calculateEmission ElectricEmissionStrategy p = S754_zero false /\
  S754_finite false 7205759403792794 (-56) =
    SFdiv 53 1024 (binary_normalize 53 1024 1 0 false)
                  (binary_normalize 53 1024 10 0 false) /\
  (forall s m e,
     calculateEmission GasEmissionStrategy (S754_finite s m e) =
     binary_round_aux 53 1024 s (Z.pos (m * 7205759403792794)) (e - 56)
       loc_Exact) /\
  (forall s,
     calculateEmission GasEmissionStrategy (S754_zero s) = S754_zero s /\
     calculateEmission GasEmissionStrategy (S754_infinity s) =
     S754_infinity s) /\
  calculateEmission GasEmissionStrategy S754_nan = S754_nan /\
  calculateEmission GasEmissionStrategy (binary_normalize 53 1024 2000 0 false)
    = binary_normalize 53 1024 200 0 false /\
  calculateEmission GasEmissionStrategy (binary_normalize 53 1024 1500 0 false)
    = binary_normalize 53 1024 150 0 false /\
  (forall age standard,
     getEmissionLevel (GasVehicle age standard p GasEmissionStrategy) =
     SFmul 53 1024 p (S754_finite false 7205759403792794 (-56)) /\
     getEmissionLevel
       (ElectricVehicle age standard p ElectricEmissionStrategy) =
     S754_zero false) /\
  (forall age standard strategy,
     getEmissionLevel (GasVehicle age standard p strategy) =
     calculateEmission strategy p /\
     getEmissionLevel (ElectricVehicle age standard p strategy) =
     calculateEmission strategy p).
Proof.
  split; [reflexivity|]. split; [reflexivity|]. split; [reflexivity|].
  split; [intros [] m e; reflexivity|].
  split; [intros []; split; reflexivity|].
  split; [reflexivity|]. split; [reflexivity|]. split; [reflexivity|].
  split; intros; split; reflexivity.
Qed.


(** C8, at inputs where the source does otherwise.  An identifier too
    short to hold a number, one with no digits after the prefix, and one
    whose number does not fit an [int] each end the vehicle-details query
    in an exception that nothing catches, and no message is written; the
    first eight characters are never compared with ["Vehicle_"]. *)
Theorem main_checkVehicleDetails_malformed (vehicles : list Vehicle) :
  main_checkVehicleDetails vehicles "abc" =
    Terminated (out_of_range "basic_string::substr") /\
  main_checkVehicleDetails vehicles "Vehicle_" =
    Terminated (invalid_argument "stoi") /\
  main_checkVehicleDetails vehicles "Vehicle_one" =
    Terminated (invalid_argument "stoi") /\
  main_checkVehicleDetails vehicles "Vehicle_99999999999" =
    Terminated (out_of_range "stoi") /\
  main_checkVehicleDetails main_vehicles "Bicycle_2" =
    Returned (displayDetails vehicle_2).
Proof. repeat split. Qed.

(** C9.  A record that has not reached [Completed] has verdict [false]:
    the constructor sets it so and only the step into [Completed] writes
    it.  The accessor thus gives a record whose test failed or never ran
    the same answer as some completed, non-compliant record. *)
Theorem verdict_false_until_completed (test : EmissionTest) :
  reachable test ->
  state test <> CompletedState ->
  getComplianceStatus test = false /\
  exists completed,
    reachable completed /\ state completed = CompletedState /\
    getComplianceStatus completed = getComplianceStatus test.
Proof.
  intros Hr Hs.
  assert (Hfalse : getComplianceStatus test = false).
  { induction Hr as [id s|test vehicle legalLimit Hr IH]; [reflexivity|].
    destruct (state test) eqn:Hst.
    - rewrite performTest_pending in Hs |- * by exact Hst.
      destruct (ltb (getEmissionLevel vehicle) (of_Z 0)) eqn:Hlt.
      + rewrite performTest_inProgress_throws by done.
        apply IH. congruence.
      + rewrite performTest_inProgress_ok in Hs by done. done.
    - destruct (ltb (getEmissionLevel vehicle) (of_Z 0)) eqn:Hlt.
      + rewrite performTest_inProgress_throws by done.
        apply IH. congruence.
      + rewrite performTest_inProgress_ok in Hs by done. done.
    - rewrite performTest_completed in Hs by exact Hst. done. }
  split; [exact Hfalse|].
  exists (record (performTest (EmissionTest_new "Vehicle_1" PendingState)
                    vehicle_1 main_legalLimit)).
  split; [apply reachable_performTest, reachable_new|].
  rewrite Hfalse. split; reflexivity.
Qed.

(** C10.  Vehicles built with the Gas or the Electric strategy and a
    non-negative parameter have a non-negative emission level, so their
    tests never throw; a run of [main] over such vehicles (fewer than
    [INT_MAX] of them) reaches the join with an entry for every vehicle. *)
Theorem provided_strategies_never_fail (vehicles : list Vehicle)
    (legalLimit : double) :
  Forall (fun v =>
            (strategyOf v = GasEmissionStrategy \/
             strategyOf v = ElectricEmissionStrategy) /\
            leb (of_Z 0) (parameterOf v) = true) vehicles ->
  Z.of_nat (length vehicles) < INT_MAX ->
  Forall (fun v =>
            leb (of_Z 0) (getEmissionLevel v) = true /\
            ltb (getEmissionLevel v) (of_Z 0) = false /\
            forall id,
              let r := performTest (EmissionTest_new id PendingState) v
                         legalLimit in
              thrown r = None /\ state (record r) = CompletedState) vehicles /\
  (exists w, main_tests vehicles legalLimit w) /\
  (forall w, main_tests vehicles legalLimit w ->
     forall i v, vehicles !! i = Some v ->
       testResults w !! vehicleName (1 + Z.of_nat i) =
       Some (leb (getEmissionLevel v) legalLimit)).
Proof.
  intros Hall Hb.
  assert (Hnn : Forall (fun v => leb (of_Z 0) (getEmissionLevel v) = true)
                  vehicles).
  { eapply Forall_impl; [exact Hall|]. intros v [Hs Hp].
    destruct v as [a e p s|a e p s]; simpl in *;
      destruct Hs as [-> | ->]; simpl; auto using mul_tenth_nonneg. }
  split; [|split].
  - eapply Forall_impl; [exact Hnn|]. intros v Hv.
    pose proof (leb_zero_not_ltb _ Hv) as Hlt.
    repeat split; try done; by rewrite performTest_fresh_ok.
  - by apply main_tests_exists.
  - intros w Hm i v Hv. rewrite (main_tests_lookup _ _ _ _ _ Hm Hv).
    rewrite Forall_lookup in Hnn.
    by rewrite (leb_zero_not_ltb _ (Hnn i v Hv)).
Qed.

(** ** Instances at concrete inputs *)

Lemma performTest_compliance_witness :
  leb (of_Z 0) (getEmissionLevel vehicle_1) = true /\
  getComplianceStatus
    (record (performTest (EmissionTest_new "Vehicle_1" PendingState)
               vehicle_1 main_legalLimit)) =
  leb (getEmissionLevel vehicle_1) main_legalLimit.
Proof.
  split; [reflexivity|].
  destruct (performTest_compliance vehicle_1 main_legalLimit "Vehicle_1"
              eq_refl) as (_ & _ & H & _).
  exact H.
Defined.

Lemma performTest_negative_emission_witness :
  ltb (getEmissionLevel negativeVehicle) (of_Z 0) = true /\
  thrown (performTest (EmissionTest_new "Vehicle_1" PendingState)
            negativeVehicle main_legalLimit) =
  Some (invalid_argument "Invalid emission level.").
Proof.
  split; [reflexivity|].
  destruct (performTest_negative_emission negativeVehicle main_legalLimit
              eq_refl) as [_ H].
  destruct (H "Vehicle_1") as [Hthrown _]. exact Hthrown.
Defined.

Lemma runTest_failure_no_entry_witness :
  thrown (performTest (EmissionTest_new "Vehicle_4" PendingState)
            faultyVehicle main_legalLimit) <> None /\
  stores (runTest faultyVehicle "Vehicle_4" main_legalLimit) = [].
Proof.
  assert (H : thrown (performTest (EmissionTest_new "Vehicle_4" PendingState)
                        faultyVehicle main_legalLimit) <> None).
  { vm_compute. discriminate. }
  split; [exact H|].
  destruct (runTest_failure_no_entry faultyVehicle "Vehicle_4"
              main_legalLimit H) as [Hstores _].
  exact Hstores.
Defined.

Lemma performTest_completed_idempotent_witness :
  state completedTest = CompletedState /\
  record (performTest completedTest vehicle_2 main_legalLimit) = completedTest.
Proof.
  split; [reflexivity|].
  destruct (performTest_completed_idempotent completedTest vehicle_2
              main_legalLimit eq_refl) as [H _].
  rewrite H. reflexivity.
Defined.

Lemma main_tests_entry_count_witness :
  Z.of_nat (length main_vehicles) < INT_MAX /\
  exists w, main_tests main_vehicles main_legalLimit w.
Proof.
  split; [reflexivity|].
  destruct (main_tests_entry_count main_vehicles main_legalLimit eq_refl)
    as [Hex _].
  exact Hex.
Defined.


Lemma verdict_false_until_completed_witness :
  reachable (EmissionTest_new "Vehicle_1" PendingState) /\
  state (EmissionTest_new "Vehicle_1" PendingState) <> CompletedState /\
  getComplianceStatus (EmissionTest_new "Vehicle_1" PendingState) = false.
Proof.
  assert (Hs : state (EmissionTest_new "Vehicle_1" PendingState)
               <> CompletedState) by discriminate.
  split; [apply reachable_new|]. split; [exact Hs|].
  destruct (verdict_false_until_completed _ (reachable_new _ _) Hs)
    as [Hfalse _].
  exact Hfalse.
Defined.

Lemma provided_strategies_never_fail_witness :
  Forall (fun v =>
            (strategyOf v = GasEmissionStrategy \/
             strategyOf v = ElectricEmissionStrategy) /\
            leb (of_Z 0) (parameterOf v) = true) main_vehicles /\
  Z.of_nat (length main_vehicles) < INT_MAX /\
  exists w, main_tests main_vehicles main_legalLimit w.
Proof.
  assert (H : Forall (fun v =>
            (strategyOf v = GasEmissionStrategy \/
             strategyOf v = ElectricEmissionStrategy) /\
            leb (of_Z 0) (parameterOf v) = true) main_vehicles).
  { repeat (constructor;
            [split; [(left; reflexivity) || (right; reflexivity)
                    | reflexivity]|]).
    constructor. }
  split; [exact H|]. split; [reflexivity|].
  destruct (provided_strategies_never_fail main_vehicles main_legalLimit H
              eq_refl) as (_ & Hex & _).
  exact Hex.
Defined.

(** * Further properties *)

(** ** Order of binary64 values *)

Lemma lex_compare_trans (e1 e2 e3 : Z) (m1 m2 m3 : positive) (c1 c2 : comparison) :
  match e1 ?= e2 with Lt => Lt | Gt => Gt | Eq => Pos.compare_cont Eq m1 m2 end = c1 ->
  match e2 ?= e3 with Lt => Lt | Gt => Gt | Eq => Pos.compare_cont Eq m2 m3 end = c2 ->
  c1 <> Gt -> c2 <> Gt ->
  match e1 ?= e3 with Lt => Lt | Gt => Gt | Eq => Pos.compare_cont Eq m1 m3 end =
  match c1, c2 with Eq, Eq => Eq | _, _ => Lt end.
Proof.
  change (Pos.compare_cont Eq m1 m2) with (m1 ?= m2)%positive.
  change (Pos.compare_cont Eq m2 m3) with (m2 ?= m3)%positive.
  change (Pos.compare_cont Eq m1 m3) with (m1 ?= m3)%positive.
  intros <- <-.
  destruct (Z.compare_spec e1 e2), (Z.compare_spec e2 e3),
    (Z.compare_spec e1 e3); try lia; try congruence;
  destruct (Pos.compare_spec m1 m2), (Pos.compare_spec m2 m3),
    (Pos.compare_spec m1 m3); try lia; congruence.
Qed.

Lemma neg_compare_flip (e1 e2 : Z) (m1 m2 : positive) :
  match e1 ?= e2 with
  | Lt => Gt | Gt => Lt | Eq => CompOpp (Pos.compare_cont Eq m1 m2)
  end =
  match e2 ?= e1 with
  | Lt => Lt | Gt => Gt | Eq => Pos.compare_cont Eq m2 m1
  end.
Proof.
  change (Pos.compare_cont Eq m1 m2) with (m1 ?= m2)%positive.
  change (Pos.compare_cont Eq m2 m1) with (m2 ?= m1)%positive.
  rewrite (Z.compare_antisym e1 e2), (Pos.compare_antisym m1 m2).
  destruct (e1 ?= e2); reflexivity.
Qed.

(** [<=] and [<] chain: from [x <= y] and [y <= z] follows [x <= z], and
    [x < z] as soon as one of the two is strict. *)
Lemma SFcompare_trans (x y z : spec_float) (c1 c2 : comparison) :
  SFcompare x y = Some c1 -> SFcompare y z = Some c2 ->
  c1 <> Gt -> c2 <> Gt ->
  SFcompare x z = Some match c1, c2 with Eq, Eq => Eq | _, _ => Lt end.
Proof.
  destruct x as [sx|sx| |sx mx ex], y as [sy|sy| |sy my ey],
    z as [sz|sz| |sz mz ez]; cbn [SFcompare]; intros H1 H2 N1 N2;
    try discriminate;
    repeat match goal with s : bool |- _ => destruct s end;
    try (simplify_eq; done);
    try (injection H1 as <-; injection H2 as <-; exfalso; congruence).
  all: try (injection H2 as <-; injection H1 as H1; f_equal;
            destruct c1; congruence).
  all: try (injection H1 as <-; injection H2 as H2; f_equal;
            destruct c2; congruence).
  - injection H1 as H1. injection H2 as H2. f_equal.
    rewrite neg_compare_flip in H1, H2 |- *.
    rewrite (lex_compare_trans ez ey ex mz my mx c2 c1 H2 H1) by done.
    by destruct c1, c2.
  - injection H1 as H1. injection H2 as H2. f_equal.
    by apply (lex_compare_trans ex ey ez mx my mz c1 c2).
Qed.

Lemma leb_trans (x y z : double) :
  leb x y = true -> leb y z = true -> leb x z = true.
Proof.
  unfold leb, SFleb. intros H1 H2.
  destruct (SFcompare x y) as [c1|] eqn:E1; [|done].
  destruct (SFcompare y z) as [c2|] eqn:E2; [|done].
  rewrite (SFcompare_trans x y z c1 c2 E1 E2) by (by destruct c1, c2).
  by destruct c1, c2.
Qed.

Lemma leb_ltb_trans (x y z : double) :
  leb x y = true -> ltb y z = true -> ltb x z = true.
Proof.
  unfold leb, ltb, SFleb, SFltb. intros H1 H2.
  destruct (SFcompare x y) as [c1|] eqn:E1; [|done].
  destruct (SFcompare y z) as [c2|] eqn:E2; [|done].
  rewrite (SFcompare_trans x y z c1 c2 E1 E2) by (by destruct c1, c2).
  by destruct c1, c2.
Qed.

(** A product with [0.1] is below zero only if the other factor is. *)
Lemma mul_tenth_negative (p : double) :
  ltb (mul p tenth) (of_Z 0) = true -> ltb p (of_Z 0) = true.
Proof.
  destruct p as [s|[]| |[] m e]; try reflexivity; try discriminate.
  unfold mul, tenth, SFmul.
    destruct (binary_round_aux_sign (xorb false false)
                (Zpos (m * 7205759403792794)) (e + -56) ltac:(lia))
    as [-> | [-> | (m' & e' & ->)]]; discriminate.
Qed.

(** ** The state machine, from any state *)

(** X1.  Whatever the state of the record, [performTest] keeps its
    identifier, never moves it to an earlier state, and writes to [cout]
    only.  It returns with the record [Completed], or throws
    [std::invalid_argument] with the record [InProgress] and the verdict as
    it was; the latter never happens to a [Completed] record. *)
Theorem performTest_outcome (test : EmissionTest) (vehicle : Vehicle)
    (legalLimit : double) :
  let r := performTest test vehicle legalLimit in
  getVehicleID (record r) = getVehicleID test /\
  (rank (state (record r)) <= rank (state test))%nat /\
  Forall (fun e => exists o, e = Cout o) (trace r) /\
  match thrown r with
  | None => state (record r) = CompletedState
  | Some e =>
      e = invalid_argument "Invalid emission level." /\
      state (record r) = InProgressState /\
      state test <> CompletedState /\
      getComplianceStatus (record r) = getComplianceStatus test
  end.
Proof.
  assert (Hcout : forall l : list OutItem,
            Forall (fun e => exists o, e = Cout o) (Cout <$> l)).
  { intros l. apply Forall_fmap, Forall_forall. intros o _. by exists o. }
  destruct (state test) eqn:Hs.
  - rewrite performTest_pending by exact Hs.
    destruct (ltb (getEmissionLevel vehicle) (of_Z 0)) eqn:Hlt.
    + rewrite performTest_inProgress_throws by done.
      cbn [after record trace thrown]. rewrite ?Hs.
      repeat split; [cbn; lia | apply (Hcout [_; _; _]) | congruence].
    + rewrite performTest_inProgress_ok by done.
      cbn [after record trace thrown]. rewrite ?Hs.
      repeat split; [cbn; lia|].
      apply (Hcout [_; _; _; _; _; _; _; _; _; _]).
  - destruct (ltb (getEmissionLevel vehicle) (of_Z 0)) eqn:Hlt.
    + rewrite performTest_inProgress_throws by done.
      cbn [record trace thrown]. rewrite ?Hs.
      repeat split; [lia | apply (Hcout []) | congruence].
    + rewrite performTest_inProgress_ok by done.
      cbn [record trace thrown]. rewrite ?Hs.
      repeat split; [cbn; lia|]. apply (Hcout [_; _; _; _; _; _; _]).
  - rewrite performTest_completed by exact Hs.
    cbn [record trace thrown]. rewrite ?Hs.
    repeat split; [lia|]. apply (Hcout [_; _; _]).
Qed.

(** X2.  A record left [InProgress] by a failed test is completed by a
    later call: the verdict is then the one of the later vehicle and limit,
    and the "now in progress" line is not written again. *)
Theorem performTest_retry_after_failure (id : string) (faulty vehicle : Vehicle)
    (limit0 legalLimit : double) :
  ltb (getEmissionLevel faulty) (of_Z 0) = true ->
  ltb (getEmissionLevel vehicle) (of_Z 0) = false ->
  let failed :=
    record (performTest (EmissionTest_new id PendingState) faulty limit0) in
  performTest failed vehicle legalLimit =
  {| record :=
       {| vehicleID := id; state := CompletedState;
          complianceStatus := leb (getEmissionLevel vehicle) legalLimit |};
     trace :=
       [Cout (OStr "Vehicle ID: "); Cout (OStr id);
        Cout (OStr " | Emission Level: ");
        Cout (ODouble (getEmissionLevel vehicle));
        Cout (OStr " | Compliance: ");
        Cout (OStr (if leb (getEmissionLevel vehicle) legalLimit
                    then "Pass" else "Fail"));
        Cout OEndl];
     thrown := None |}.
Proof.
  intros Hneg Hok. rewrite performTest_fresh_throws by exact Hneg.
  cbn [record]. by rewrite performTest_inProgress_ok.
Qed.

(** ** Edge cases of the comparison *)

(** X3.  Raising the legal limit never turns a pass into a fail. *)
Theorem verdict_monotone_in_limit (vehicle : Vehicle) (id : string)
    (legalLimit legalLimit' : double) :
  getComplianceStatus
    (record (performTest (EmissionTest_new id PendingState) vehicle
               legalLimit)) = true ->
  leb legalLimit legalLimit' = true ->
  getComplianceStatus
    (record (performTest (EmissionTest_new id PendingState) vehicle
               legalLimit')) = true.
Proof.
  destruct (ltb (getEmissionLevel vehicle) (of_Z 0)) eqn:Hlt.
  - by rewrite performTest_fresh_throws.
  - rewrite !performTest_fresh_ok by exact Hlt.
    unfold getComplianceStatus. cbn [record complianceStatus].
    apply leb_trans.
Qed.

(** X4.  A NaN is not rejected: when the emission level is a NaN, or the
    limit is a NaN and the level is not below zero, the test completes, the
    verdict is [false], and [runTest] stores it. *)
Theorem nan_completes_as_fail (vehicle : Vehicle) (id : string)
    (legalLimit : double) :
  getEmissionLevel vehicle = S754_nan \/
  (legalLimit = S754_nan /\ ltb (getEmissionLevel vehicle) (of_Z 0) = false) ->
  let r := performTest (EmissionTest_new id PendingState) vehicle legalLimit in
  thrown r = None /\ state (record r) = CompletedState /\
  getComplianceStatus (record r) = false /\
  stores (runTest vehicle id legalLimit) = [(id, false)].
Proof.
  intros H.
  assert (ltb (getEmissionLevel vehicle) (of_Z 0) = false /\
          leb (getEmissionLevel vehicle) legalLimit = false) as [Hlt Hle].
  { destruct H as [-> | [-> Hlt]]; [done|]. split; [done|].
    unfold leb, SFleb. by destruct (getEmissionLevel vehicle). }
  rewrite stores_runTest, performTest_fresh_ok, Hlt, Hle by exact Hlt.
  done.
Qed.

(** X5.  With one of the two provided strategies a test fails only for a
    Gas strategy fed a parameter below zero; the Electric strategy never
    makes a test fail, whatever the parameter. *)
Theorem failure_means_negative_gas (vehicle : Vehicle) (id : string)
    (legalLimit : double) :
  strategyOf vehicle = GasEmissionStrategy \/
  strategyOf vehicle = ElectricEmissionStrategy ->
  thrown (performTest (EmissionTest_new id PendingState) vehicle legalLimit)
    <> None ->
  strategyOf vehicle = GasEmissionStrategy /\
  ltb (parameterOf vehicle) (of_Z 0) = true.
Proof.
  rewrite performTest_fresh_thrown. intros Hs Hthrown.
  destruct (ltb (getEmissionLevel vehicle) (of_Z 0)) eqn:Hlt; [|done].
  destruct vehicle as [a e p s|a e p s]; cbn [strategyOf parameterOf] in *;
    destruct Hs as [-> | ->]; cbn [getEmissionLevel calculateEmission
      GasEmissionStrategy ElectricEmissionStrategy] in Hlt;
    try discriminate; auto using mul_tenth_negative.
Qed.

(** A negative engine size so small that the product underflows to [-0]
    is not rejected. *)
Example negative_underflow_completes :
  ltb (S754_finite true 1 (-1074)) (of_Z 0) = true /\
  valid (S754_finite true 1 (-1074)) = true /\
  stores (runTest (GasVehicle 1 "BS6" (S754_finite true 1 (-1074))
                     GasEmissionStrategy) "Vehicle_1" main_legalLimit) =
  [("Vehicle_1", true)].
Proof. repeat split. Qed.

(** ** Executions of [main] *)

Lemma run_prefix (tid : nat) (pre rest : list Event)
    (pool : list (list Event)) (w w' : World) :
  pool !! tid = Some (pre ++ rest) ->
  exec tid pre w = Some w' ->
  rtc step (pool, w) (<[tid := rest]> pool, w').
Proof.
  revert pool w. induction pre as [|e pre IH]; intros pool w Hl He.
  - injection He as <-. by rewrite list_insert_id.
  - cbn [exec] in He. destruct (perform tid e w) as [w1|] eqn:Hp; [|done].
    cbn [mbind option_bind] in He.
    eapply rtc_l; [by eapply (step_thread pool w w1 tid e (pre ++ rest))|].
    rewrite <- (list_insert_insert_eq pool tid rest (pre ++ rest)).
    apply IH; [|done].
    apply list_lookup_insert_eq. eauto using lookup_lt_Some.
Qed.

Lemma run_in_order_rtc (order : list nat) (c c' : Config) :
  run_in_order order c = Some c' -> rtc step c c'.
Proof.
  revert c. induction order as [|tid order IH]; intros [pool w] H.
  - by injection H as <-.
  - cbn [run_in_order fst snd] in H.
    destruct (pool !! tid) as [tr|] eqn:Hl; [|done].
    cbn [mbind option_bind] in H.
    destruct (exec tid tr w) as [w1|] eqn:He; [|done].
    cbn [mbind option_bind] in H.
    etrans; [|by apply IH].
    apply (run_prefix tid tr []); [by rewrite app_nil_r|done].
Qed.

Lemma main_reachable_lock_inv (vehicles : list Vehicle) (legalLimit : double)
    (c : Config) :
  main_reachable vehicles legalLimit c -> lock_inv c.
Proof.
  intros (pool & Hp & Hrtc).
  eapply lock_inv_rtc; [|exact Hrtc]. by eapply testThreads_lock_inv.
Qed.

(** X6.  Mutual exclusion: in every configuration [main] can reach, a
    thread whose next action is the write to [testResults] holds the mutex,
    so no two threads are about to write at once. *)
Theorem store_mutual_exclusion (vehicles : list Vehicle) (legalLimit : double)
    (c : Config) (t1 t2 : nat) (id1 id2 : string) (b1 b2 : bool)
    (rest1 rest2 : list Event) :
  main_reachable vehicles legalLimit c ->
  c.1 !! t1 = Some (Store id1 b1 :: rest1) ->
  c.1 !! t2 = Some (Store id2 b2 :: rest2) ->
  resultMutex c.2 = Some t1 /\ t1 = t2.
Proof.
  intros Hr H1 H2. apply main_reachable_lock_inv in Hr.
  pose proof (store_holds_mutex c t1 id1 b1 rest1 Hr H1) as Hm1.
  pose proof (store_holds_mutex c t2 id2 b2 rest2 Hr H2) as Hm2.
  split; [exact Hm1|]. congruence.
Qed.

(** X7.  No deadlock: from every configuration [main] can reach, either all
    threads are joined or some thread can act, the run can always be
    continued up to the join, and at the join the mutex is free. *)
Theorem main_no_deadlock (vehicles : list Vehicle) (legalLimit : double)
    (c : Config) :
  main_reachable vehicles legalLimit c ->
  (joined c.1 \/ exists c', step c c') /\
  (exists c', rtc step c c' /\ joined c'.1) /\
  (joined c.1 -> resultMutex c.2 = None).
Proof.
  intros Hr. pose proof (main_reachable_lock_inv _ _ _ Hr) as Hinv.
  split; [by apply progress|]. split; [by apply run_to_join|].
  intros Hj. destruct Hinv as [Hwl Hh].
  destruct (resultMutex c.2) as [h|] eqn:Hm; [|reflexivity].
  destruct (Hh h eq_refl) as [tr Hl]. pose proof (Hwl h tr Hl) as Hw.
  unfold joined in Hj. rewrite Forall_lookup in Hj.
  rewrite (Hj h tr Hl), bool_decide_eq_true_2 in Hw by reflexivity.
  discriminate.
Qed.

(** X9.  The result map does not depend on the schedule: any two runs of
    [main] to the join end with the same [testResults]. *)
Theorem main_tests_schedule_independent (vehicles : list Vehicle)
    (legalLimit : double) (w1 w2 : World) :
  main_tests vehicles legalLimit w1 ->
  main_tests vehicles legalLimit w2 ->
  testResults w1 = testResults w2.
Proof.
  intros H1 H2.
  by rewrite (main_tests_testResults _ _ _ H1),
             (main_tests_testResults _ _ _ H2).
Qed.

(** ** Output *)

Lemma couts_cons (e : Event) (tr : list Event) :
  couts (e :: tr) = couts [e] ++ couts tr.
Proof. by destruct e. Qed.

Lemma cerrs_cons (e : Event) (tr : list Event) :
  cerrs (e :: tr) = cerrs [e] ++ cerrs tr.
Proof. by destruct e. Qed.

Lemma perform_output (tid : nat) (e : Event) (w w' : World) :
  perform tid e w = Some w' ->
  cout w' = cout w ++ couts [e] /\ cerr w' = cerr w ++ cerrs [e].
Proof.
  destruct e; cbn [perform couts cerrs]; intros H;
    [| |destruct (resultMutex w); [done|]| |destruct (bool_decide _); [|done]];
    inversion H; cbn [cout cerr]; by rewrite ?app_nil_r.
Qed.

(** What has been written together with what is still to be written is, up
    to order, the same before and after a step. *)
Lemma output_step (c c' : Config) :
  step c c' ->
  cout c'.2 ++ (c'.1 ≫= couts) ≡ₚ cout c.2 ++ (c.1 ≫= couts) /\
  cerr c'.2 ++ (c'.1 ≫= cerrs) ≡ₚ cerr c.2 ++ (c.1 ≫= cerrs).
Proof.
  intros Hstep. destruct Hstep as [pool w w' tid e rest Hl Hp].
  cbn [fst snd]. pose proof (lookup_lt_Some _ _ _ Hl) as Hlt.
  destruct (perform_output _ _ _ _ Hp) as [-> ->].
  rewrite insert_take_drop by done.
  pose proof (take_drop_middle pool tid (e :: rest) Hl) as Hmid.
  set (pre := take tid pool) in *. set (post := drop (S tid) pool) in *.
  clearbody pre post. subst pool.
  rewrite !bind_app, !bind_cons, (couts_cons e rest), (cerrs_cons e rest).
  split.
  - rewrite <- !(assoc_L (++)). apply Permutation_app_head.
    rewrite !(assoc_L (++)). do 2 apply Permutation_app_tail.
    apply Permutation_app_comm.
  - rewrite <- !(assoc_L (++)). apply Permutation_app_head.
    rewrite !(assoc_L (++)). do 2 apply Permutation_app_tail.
    apply Permutation_app_comm.
Qed.

Lemma output_rtc (c c' : Config) :
  rtc step c c' ->
  cout c'.2 ++ (c'.1 ≫= couts) ≡ₚ cout c.2 ++ (c.1 ≫= couts) /\
  cerr c'.2 ++ (c'.1 ≫= cerrs) ≡ₚ cerr c.2 ++ (c.1 ≫= cerrs).
Proof.
  induction 1 as [c|c c1 c' Hstep _ [IH1 IH2]]; [done|].
  destruct (output_step _ _ Hstep) as [H1 H2].
  split; [by rewrite IH1|by rewrite IH2].
Qed.

Lemma joined_no_output (pool : list (list Event)) :
  joined pool -> pool ≫= couts = [] /\ pool ≫= cerrs = [].
Proof.
  induction 1 as [|tr pool -> _ [IH1 IH2]]; [done|].
  by rewrite !bind_cons, IH1, IH2.
Qed.

Lemma cerrs_runTest (vehicle : Vehicle) (id : string) (legalLimit : double) :
  cerrs (runTest vehicle id legalLimit) =
  if ltb (getEmissionLevel vehicle) (of_Z 0) then
    [OStr "Invalid argument for Vehicle ID "; OStr id; OStr ": ";
     OStr "Invalid emission level."; OEndl]
  else [].
Proof.
  destruct (ltb (getEmissionLevel vehicle) (of_Z 0)) eqn:Hlt.
  - by rewrite runTest_throws.
  - by rewrite runTest_ok, performTest_fresh_ok.
Qed.

Lemma testThreads_no_cerrs (vehicles : list Vehicle) (vehicleID : Z)
    (legalLimit : double) (pool : list (list Event)) :
  testThreads vehicles vehicleID legalLimit = Some pool ->
  Forall (fun v => ltb (getEmissionLevel v) (of_Z 0) = false) vehicles ->
  pool ≫= cerrs = [].
Proof.
  intros H Hall. revert vehicleID pool H.
  induction Hall as [|v vehicles Hv _ IH]; intros vehicleID pool H;
    simpl in H.
  - by inversion H.
  - destruct (bool_decide (vehicleID < INT_MAX)); [|done].
    destruct (testThreads vehicles (vehicleID + 1) legalLimit) as [threads|]
      eqn:Ht; [|done].
    inversion H; subst pool.
    by rewrite bind_cons, cerrs_runTest, Hv, (IH _ _ Ht).
Qed.

(** X10.  Nothing written is lost or duplicated: after any run of [main]
    to the join, [cout] and [cerr] hold, up to the order in which the
    threads interleaved, exactly what the threads write.  Hence every
    failed test is reported on [cerr] under its identifier, and [cerr]
    stays empty when no test fails. *)
Theorem main_tests_output (vehicles : list Vehicle) (legalLimit : double)
    (w : World) :
  main_tests vehicles legalLimit w ->
  exists pool,
    testThreads vehicles 1 legalLimit = Some pool /\
    cout w ≡ₚ pool ≫= couts /\
    cerr w ≡ₚ pool ≫= cerrs /\
    (forall i v, vehicles !! i = Some v ->
       ltb (getEmissionLevel v) (of_Z 0) = true ->
       OStr (vehicleName (1 + Z.of_nat i)) ∈ cerr w) /\
    (Forall (fun v => ltb (getEmissionLevel v) (of_Z 0) = false) vehicles ->
     cerr w = []).
Proof.
  intros (pool & pool' & Hp & Hrtc & Hj). exists pool.
  destruct (output_rtc _ _ Hrtc) as [H1 H2]. cbn [fst snd] in H1, H2.
  destruct (joined_no_output _ Hj) as [E1 E2].
  rewrite E1, app_nil_r in H1. rewrite E2, app_nil_r in H2.
  cbn [World_init cout cerr app] in H1, H2.
  split; [done|]. split; [done|]. split; [done|]. split.
  - intros i v Hv Hlt. rewrite H2. apply list_elem_of_bind.
    exists (runTest v (vehicleName (1 + Z.of_nat i)) legalLimit). split.
    + rewrite cerrs_runTest, Hlt. set_solver.
    + apply list_elem_of_lookup. exists i.
      by rewrite (testThreads_lookup _ _ _ _ i Hp), Hv.
  - intros Hall. apply Permutation_nil_r.
    by rewrite H2, (testThreads_no_cerrs _ _ _ _ Hp Hall).
Qed.

(** What a thread has written so far sits in the streams in the order the
    thread wrote it. *)
Lemma thread_order_rtc (pool0 : list (list Event)) (w0 : World) (c : Config) :
  rtc step (pool0, w0) c ->
  forall i tr0, pool0 !! i = Some tr0 ->
    exists rem, c.1 !! i = Some rem /\
      (exists done, couts tr0 = done ++ couts rem /\
                    sublist done (cout c.2)) /\
      (exists done, cerrs tr0 = done ++ cerrs rem /\
                    sublist done (cerr c.2)).
Proof.
  revert c. apply (rtc_ind_r (fun c => forall i tr0, pool0 !! i = Some tr0 ->
    exists rem, c.1 !! i = Some rem /\
      (exists done, couts tr0 = done ++ couts rem /\
                    sublist done (cout c.2)) /\
      (exists done, cerrs tr0 = done ++ cerrs rem /\
                    sublist done (cerr c.2)))).
  - intros i tr0 Hi. exists tr0. split; [done|].
    split; exists []; split; try done; apply sublist_nil_l.
  - intros c c' _ Hstep IH i tr0 Hi.
    destruct (IH i tr0 Hi) as (rem & Hrem & (d1 & E1 & S1) & (d2 & E2 & S2)).
    destruct Hstep as [pool w w' tid e rest Hl Hp]. cbn [fst snd] in *.
    destruct (perform_output _ _ _ _ Hp) as [-> ->].
    destruct (decide (tid = i)) as [->|Hne].
    + rewrite Hl in Hrem. injection Hrem as <-.
      exists rest. split.
      { apply list_lookup_insert_eq. eauto using lookup_lt_Some. }
      rewrite (couts_cons e rest) in E1. rewrite (cerrs_cons e rest) in E2.
      split.
      * exists (d1 ++ couts [e]). split; [by rewrite <- (assoc_L (++))|].
        by apply sublist_app.
      * exists (d2 ++ cerrs [e]). split; [by rewrite <- (assoc_L (++))|].
        by apply sublist_app.
    + exists rem. split; [by rewrite list_lookup_insert_ne|].
      split; [exists d1|exists d2]; (split; [done|]);
        by apply sublist_inserts_r.
Qed.

(** X11.  The lines of one test are never reordered among themselves:
    after any run of [main] to the join, what the thread of a vehicle wrote
    to [cout] and to [cerr] appears there in program order, possibly with
    lines of other tests in between. *)
Theorem main_tests_thread_order (vehicles : list Vehicle)
    (legalLimit : double) (w : World) (i : nat) (v : Vehicle) :
  main_tests vehicles legalLimit w ->
  vehicles !! i = Some v ->
  sublist (couts (runTest v (vehicleName (1 + Z.of_nat i)) legalLimit))
          (cout w) /\
  sublist (cerrs (runTest v (vehicleName (1 + Z.of_nat i)) legalLimit))
          (cerr w).
Proof.
  intros (pool & pool' & Hp & Hrtc & Hj) Hv.
  assert (Hi : pool !! i =
               Some (runTest v (vehicleName (1 + Z.of_nat i)) legalLimit)).
  { by rewrite (testThreads_lookup _ _ _ _ i Hp), Hv. }
  destruct (thread_order_rtc _ _ _ Hrtc i _ Hi)
    as (rem & Hrem & (d1 & E1 & S1) & (d2 & E2 & S2)).
  cbn [fst snd] in *. unfold joined in Hj. rewrite Forall_lookup in Hj.
  rewrite (Hj i rem Hrem) in E1, E2. cbn [couts cerrs] in E1, E2.
  rewrite app_nil_r in E1, E2. by rewrite E1, E2.
Qed.

(** ** One test run alone *)

(** X12.  A test that completes, run alone on a world whose mutex is free,
    leaves its verdict under its identifier (replacing an earlier entry
    under that identifier), leaves every other entry as it was, and frees
    the mutex again. *)
Theorem runTest_alone_stores (tid : nat) (vehicle : Vehicle) (id : string)
    (legalLimit : double) (w : World) :
  ltb (getEmissionLevel vehicle) (of_Z 0) = false ->
  resultMutex w = None ->
  exists w',
    exec tid (runTest vehicle id legalLimit) w = Some w' /\
    testResults w' !! id = Some (leb (getEmissionLevel vehicle) legalLimit) /\
    (forall k, k <> id -> testResults w' !! k = testResults w !! k) /\
    (is_Some (testResults w !! id) ->
     size (testResults w') = size (testResults w)) /\
    resultMutex w' = None.
Proof.
  intros Hlt Hm.
  destruct (exec_runTest_ok tid vehicle id legalLimit w Hlt Hm)
    as (w' & He & Hr & Hm').
  exists w'. rewrite Hr. split; [done|]. split; [apply lookup_insert_eq|].
  split; [intros k Hk; by apply lookup_insert_ne|]. split; [|done].
  intros Hb. by apply map_size_insert_Some.
Qed.

(** X13.  Different counter values give different identifiers. *)
Theorem vehicleName_distinct (a b : Z) :
  a <> b -> vehicleName a <> vehicleName b.
Proof. intros Hne H. by apply Hne, vehicleName_inj. Qed.

(** ** Identifiers read back *)

Lemma list_ascii_of_string_app (s1 s2 : string) :
  String.list_ascii_of_string (s1 +:+ s2) =
  String.list_ascii_of_string s1 ++ String.list_ascii_of_string s2.
Proof. induction s1 as [|c s1 IH]; [reflexivity|]. simpl. by f_equal. Qed.

Lemma length_list_ascii_of_string (s : string) :
  length (String.list_ascii_of_string s) = String.length s.
Proof. induction s as [|c s IH]; [reflexivity|]. simpl. by f_equal. Qed.

Lemma substr_app (prefix s : string) :
  substr (prefix +:+ s) (String.length prefix) = inr s.
Proof.
  unfold substr. rewrite bool_decide_eq_false_2.
  - rewrite list_ascii_of_string_app, <- length_list_ascii_of_string.
    by rewrite drop_app_length, String.string_of_list_ascii_of_string.
  - rewrite <- !length_list_ascii_of_string, list_ascii_of_string_app,
      length_app. lia.
Qed.

Lemma pretty_N_char_digit (d : N) :
  (d < 10)%N ->
  isdigit (pretty_N_char d) = true /\
  Z.of_nat (nat_of_ascii (pretty_N_char d)) - 48 = Z.of_N d.
Proof.
  intros Hd.
  assert (d = 0 \/ d = 1 \/ d = 2 \/ d = 3 \/ d = 4 \/ d = 5 \/ d = 6 \/
          d = 7 \/ d = 8 \/ d = 9)%N as H by lia.
  repeat (destruct H as [-> | H]; [by vm_compute|]). by subst d.
Qed.

Lemma isdigit_not_special (c : ascii) :
  isdigit c = true ->
  isspace c = false /\ c <> "-"%char /\ c <> "+"%char.
Proof.
  unfold isdigit, isspace. intros H. apply bool_decide_eq_true in H.
  split; [apply bool_decide_eq_false; lia|].
  split; intros ->; vm_compute in H; lia.
Qed.

Lemma read_digits_stop (acc : Z) (rest : string) :
  no_digit_first rest ->
  read_digits acc (String.list_ascii_of_string rest) = acc.
Proof. destruct rest as [|c rest]; [done|]. cbn. by intros ->. Qed.

(** The digits [pretty_N_go] puts in front of a string, and how
    [read_digits] reads them back. *)
Lemma pretty_N_go_digits (x : N) :
  exists ds k,
    (forall s, String.list_ascii_of_string (pretty_N_go x s) =
               ds ++ String.list_ascii_of_string s) /\
    Forall (fun c => isdigit c = true) ds /\
    ((0 < x)%N -> ds <> []) /\
    forall acc rest,
      read_digits acc (ds ++ rest) = read_digits (acc * k + Z.of_N x) rest.
Proof.
  induction (N.lt_wf_0 x) as [x _ IH].
  destruct (decide (x = 0%N)) as [->|Hx].
  - exists [], 1. repeat split; [done..|lia|].
    intros acc rest. cbn [app]. f_equal. lia.
  - assert (0 < x)%N as Hpos by lia.
    destruct (IH (x `div` 10)%N) as (ds & k & Hla & Hds & _ & Hread).
    { by apply N.div_lt. }
    destruct (pretty_N_char_digit (x `mod` 10)%N) as [Hdig Hval].
    { by apply N.mod_lt. }
    exists (ds ++ [pretty_N_char (x `mod` 10)]), (k * 10). repeat split.
    + intros s. rewrite pretty_N_go_step, Hla by done.
      by rewrite <- (assoc_L (++)).
    + apply Forall_app. split; [done|]. by constructor.
    + intros _. by destruct ds.
    + intros acc rest. rewrite <- (assoc_L (++)), Hread.
      cbn [app read_digits]. rewrite Hdig, Hval. f_equal.
      pose proof (N.div_mod x 10 ltac:(done)). lia.
Qed.

Lemma stoi_digits (s : string) (negative : bool) (ds : list ascii) (k v : Z)
    (rest : string) :
  String.list_ascii_of_string s =
    (if negative then ["-"%char] else []) ++ ds ++
    String.list_ascii_of_string rest ->
  ds <> [] ->
  Forall (fun c => isdigit c = true) ds ->
  (forall acc r, read_digits acc (ds ++ r) = read_digits (acc * k + v) r) ->
  no_digit_first rest ->
  stoi s =
  let value := if negative then - v else v in
  if bool_decide (INT_MIN <= value <= INT_MAX) then inr value
  else inl (out_of_range "stoi").
Proof.
  intros Hs Hne Hds Hread Hrest. unfold stoi. rewrite Hs.
  destruct ds as [|c ds']; [done|].
  apply Forall_cons in Hds as [Hc _].
  destruct (isdigit_not_special c Hc) as (Hsp & Hminus & Hplus).
  assert (Hv : read_digits 0 ((c :: ds') ++ String.list_ascii_of_string rest)
               = v).
  { rewrite Hread, read_digits_stop by done. lia. }
  cbn [app] in Hv. destruct negative; cbn [app skip_spaces].
  - replace (isspace "-") with false by (by vm_compute).
    rewrite bool_decide_eq_true_2 by done. cbn [app]. by rewrite Hc, Hv.
  - rewrite Hsp, !bool_decide_eq_false_2 by done. by rewrite Hc, Hv.
Qed.

Lemma stoi_pretty (n : Z) (rest : string) :
  no_digit_first rest ->
  stoi (to_string n +:+ rest) =
  if bool_decide (INT_MIN <= n <= INT_MAX) then inr n
  else inl (out_of_range "stoi").
Proof.
  intros Hrest. unfold to_string, pretty, pretty_Z.
  destruct n as [|p|p].
  - apply (stoi_digits _ false ["0"%char] 10 0 rest); try done.
    + by repeat constructor.
    + intros acc r. cbn [app read_digits].
      replace (isdigit "0") with true by (by vm_compute).
      f_equal. vm_compute (Z.of_nat (nat_of_ascii "0") - 48). lia.
  - destruct (pretty_N_go_digits (N.pos p)) as (ds & k & Hla & Hds & Hne & Hr).
    apply (stoi_digits _ false ds k (Z.pos p) rest); try done.
    + rewrite list_ascii_of_string_app. unfold pretty, pretty_positive,
        pretty, pretty_N. rewrite decide_False by done.
      rewrite Hla. cbn [String.list_ascii_of_string app].
      by rewrite app_nil_r.
    + by apply Hne.
  - destruct (pretty_N_go_digits (N.pos p)) as (ds & k & Hla & Hds & Hne & Hr).
    apply (stoi_digits _ true ds k (Z.pos p) rest); try done.
    + rewrite list_ascii_of_string_app. unfold pretty, pretty_positive,
        pretty, pretty_N. rewrite decide_False by done.
      rewrite list_ascii_of_string_app, Hla.
      cbn [String.list_ascii_of_string app]. by rewrite app_nil_r.
    + by apply Hne.
Qed.

(** X14.  [std::stoi] reads back what [std::to_string] wrote, also when
    something that does not start with a digit follows the number; a number
    that does not fit an [int] ends in [std::out_of_range]. *)
Theorem stoi_to_string (n : Z) (rest : string) :
  no_digit_first rest ->
  stoi (to_string n +:+ rest) =
  if bool_decide (INT_MIN <= n <= INT_MAX) then inr n
  else inl (out_of_range "stoi").
Proof. apply stoi_pretty. Qed.

Lemma string_app_empty_r (s : string) : s +:+ "" = s.
Proof.
  induction s as [|c s IH]; [reflexivity|].
  change (String c (s +:+ "") = String c s). by rewrite IH.
Qed.

(** The query on an identifier made of eight characters, a number, and
    something that does not start with a digit. *)
Lemma checkVehicleDetails_number (vehicles : list Vehicle) (prefix : string)
    (n : Z) (rest : string) :
  String.length prefix = 8%nat ->
  no_digit_first rest ->
  main_checkVehicleDetails vehicles (prefix +:+ to_string n +:+ rest) =
  if bool_decide (INT_MIN <= n <= INT_MAX) then
    if bool_decide (n = INT_MIN) then Undefined
    else if bool_decide (0 <= n - 1) &&
            bool_decide (n - 1 < Z.of_nat (length vehicles)) then
      match vehicles !! Z.to_nat (n - 1) with
      | Some vehicle => Returned (displayDetails vehicle)
      | None => Undefined
      end
    else Returned [OStr "Invalid Vehicle ID."; OEndl]
  else Terminated (out_of_range "stoi").
Proof.
  intros Hlen Hrest. unfold main_checkVehicleDetails.
  rewrite <- Hlen, substr_app, stoi_pretty by exact Hrest.
  by destruct (bool_decide (INT_MIN <= n <= INT_MAX)).
Qed.

(** X15.  The identifier the launch loop gave a vehicle, typed at the
    vehicle-details query, shows the details of that vehicle. *)
Theorem checkVehicleDetails_assigned_identifier (vehicles : list Vehicle)
    (i : nat) (v : Vehicle) :
  vehicles !! i = Some v ->
  1 + Z.of_nat i <= INT_MAX ->
  main_checkVehicleDetails vehicles (vehicleName (1 + Z.of_nat i)) =
  Returned (displayDetails v).
Proof.
  intros Hv Hb. unfold vehicleName.
  rewrite <- (string_app_empty_r (to_string _)).
  rewrite checkVehicleDetails_number by done.
  pose proof (lookup_lt_Some _ _ _ Hv) as Hlt.
  rewrite bool_decide_eq_true_2 by (unfold INT_MIN; lia).
  rewrite bool_decide_eq_false_2 by (unfold INT_MIN; lia).
  rewrite !bool_decide_eq_true_2 by lia. cbn [andb].
  replace (Z.to_nat (1 + Z.of_nat i - 1)) with i by lia. by rewrite Hv.
Qed.

(** X16.  A well-formed identifier whose number is not the position of a
    vehicle (zero, negative, or beyond the fleet) gets the message
    "Invalid Vehicle ID." and nothing else. *)
Theorem checkVehicleDetails_unknown_number (vehicles : list Vehicle) (n : Z) :
  INT_MIN < n <= INT_MAX ->
  n <= 0 \/ Z.of_nat (length vehicles) < n ->
  main_checkVehicleDetails vehicles (vehicleName n) =
  Returned [OStr "Invalid Vehicle ID."; OEndl].
Proof.
  intros Hb Hout. unfold vehicleName.
  rewrite <- (string_app_empty_r (to_string _)).
  rewrite checkVehicleDetails_number by done.
  rewrite bool_decide_eq_true_2 by lia.
  rewrite bool_decide_eq_false_2 by lia.
  destruct Hout.
  - by rewrite (bool_decide_eq_false_2 (0 <= n - 1)) by lia.
  - rewrite (bool_decide_eq_false_2 (n - 1 < _)) by lia.
    by rewrite andb_false_r.
Qed.

(** X17.  The query looks at the number only: the first eight characters
    are skipped unread, and what follows the number is ignored. *)
Theorem checkVehicleDetails_reads_number_only (vehicles : list Vehicle)
    (prefix : string) (n : Z) (rest : string) :
  String.length prefix = 8%nat ->
  no_digit_first rest ->
  main_checkVehicleDetails vehicles (prefix +:+ to_string n +:+ rest) =
  main_checkVehicleDetails vehicles (vehicleName n).
Proof.
  intros Hlen Hrest. unfold vehicleName.
  rewrite <- (string_app_empty_r (to_string n)) at 2.
  by rewrite !checkVehicleDetails_number.
Qed.

(** X18.  An input of fewer than eight characters ends the program:
    [substr(8)] throws [std::out_of_range], which [main] does not catch. *)
Theorem checkVehicleDetails_short_input (vehicles : list Vehicle)
    (inputID : string) :
  (String.length inputID < 8)%nat ->
  main_checkVehicleDetails vehicles inputID =
  Terminated (out_of_range "basic_string::substr").
Proof.
  intros Hlen. unfold main_checkVehicleDetails, substr.
  by rewrite bool_decide_eq_true_2.
Qed.

(** X19.  The vector is never indexed out of range.  Whatever the input,
    the query either shows the details of a vehicle of the fleet, or
    prints "Invalid Vehicle ID.", or ends in an exception of [substr] or
    [stoi]; its only undefined behaviour is the overflow of [- 1] when the
    number read is [INT_MIN]. *)
Theorem checkVehicleDetails_in_range (vehicles : list Vehicle)
    (inputID : string) :
  match main_checkVehicleDetails vehicles inputID with
  | Returned out =>
      out = [OStr "Invalid Vehicle ID."; OEndl] \/
      exists i v, vehicles !! i = Some v /\ out = displayDetails v
  | Terminated e =>
      substr inputID 8 = inl e \/
      exists digits, substr inputID 8 = inr digits /\ stoi digits = inl e
  | Undefined =>
      exists digits, substr inputID 8 = inr digits /\
                     stoi digits = inr INT_MIN
  end.
Proof.
  unfold main_checkVehicleDetails.
  destruct (substr inputID 8) as [e|digits]; [by left|].
  destruct (stoi digits) as [e|n] eqn:Hstoi; [right; by exists digits|].
  destruct (bool_decide (n = INT_MIN)) eqn:Hmin.
  { apply bool_decide_eq_true in Hmin as ->. by exists digits. }
  destruct (bool_decide (0 <= n - 1)) eqn:H0; [|by left].
  destruct (bool_decide (n - 1 < Z.of_nat (length vehicles))) eqn:H1;
    [|by left].
  apply bool_decide_eq_true in H0, H1. cbn [andb].
  destruct (vehicles !! Z.to_nat (n - 1)) as [v|] eqn:Hv.
  - right. by exists (Z.to_nat (n - 1)), v.
  - apply lookup_ge_None in Hv. lia.
Qed.

(** ** Instances of the further properties *)

Lemma main_tests_in_order (order : list nat) (pool' : list (list Event))
    (w : World) :
  run_in_order order (main_pool, World_init) = Some (pool', w) ->
  joined pool' ->
  main_tests main_vehicles main_legalLimit w.
Proof.
  intros Hrun Hj. exists main_pool, pool'. split; [reflexivity|].
  split; [exact (run_in_order_rtc order _ _ Hrun)|exact Hj].
Qed.

Lemma main_tests_world_012 :
  main_tests main_vehicles main_legalLimit (world_in_order [0; 1; 2]%nat).
Proof.
  apply (main_tests_in_order [0; 1; 2]%nat [[]; []; []]).
  - vm_compute. reflexivity.
  - by repeat constructor.
Qed.

Lemma main_tests_world_201 :
  main_tests main_vehicles main_legalLimit (world_in_order [2; 0; 1]%nat).
Proof.
  apply (main_tests_in_order [2; 0; 1]%nat [[]; []; []]).
  - vm_compute. reflexivity.
  - by repeat constructor.
Qed.

Lemma main_reachable_storing_config :
  main_reachable main_vehicles main_legalLimit storing_config.
Proof.
  exists main_pool. split; [reflexivity|].
  apply (run_prefix 0
           (take 11 (runTest vehicle_1 (vehicleName 1) main_legalLimit))
           [Store "Vehicle_1" false; Unlock] main_pool World_init).
  - reflexivity.
  - vm_compute. reflexivity.
Qed.

Lemma performTest_retry_after_failure_witness :
  ltb (getEmissionLevel negativeVehicle) (of_Z 0) = true /\
  ltb (getEmissionLevel vehicle_1) (of_Z 0) = false /\
  state (record (performTest
           (record (performTest (EmissionTest_new "Vehicle_1" PendingState)
                      negativeVehicle main_legalLimit))
           vehicle_1 main_legalLimit)) = CompletedState.
Proof.
  split; [reflexivity|]. split; [reflexivity|].
  by rewrite (performTest_retry_after_failure "Vehicle_1" negativeVehicle
                vehicle_1 main_legalLimit main_legalLimit eq_refl eq_refl).
Defined.

Lemma verdict_monotone_in_limit_witness :
  getComplianceStatus
    (record (performTest (EmissionTest_new "Vehicle_3" PendingState) vehicle_3
               main_legalLimit)) = true /\
  leb main_legalLimit (of_Z 200) = true /\
  getComplianceStatus
    (record (performTest (EmissionTest_new "Vehicle_3" PendingState) vehicle_3
               (of_Z 200))) = true.
Proof.
  split; [reflexivity|]. split; [reflexivity|].
  exact (verdict_monotone_in_limit vehicle_3 "Vehicle_3" main_legalLimit
           (of_Z 200) eq_refl eq_refl).
Defined.

Lemma nan_completes_as_fail_witness :
  getEmissionLevel (GasVehicle 1 "BS6" S754_nan GasEmissionStrategy) =
    S754_nan /\
  stores (runTest (GasVehicle 1 "BS6" S754_nan GasEmissionStrategy)
            "Vehicle_1" main_legalLimit) = [("Vehicle_1", false)].
Proof.
  split; [reflexivity|].
  destruct (nan_completes_as_fail
              (GasVehicle 1 "BS6" S754_nan GasEmissionStrategy) "Vehicle_1"
              main_legalLimit (or_introl eq_refl)) as (_ & _ & _ & H).
  exact H.
Defined.

Lemma failure_means_negative_gas_witness :
  strategyOf negativeVehicle = GasEmissionStrategy /\
  thrown (performTest (EmissionTest_new "Vehicle_1" PendingState)
            negativeVehicle main_legalLimit) <> None /\
  ltb (parameterOf negativeVehicle) (of_Z 0) = true.
Proof.
  assert (H : thrown (performTest (EmissionTest_new "Vehicle_1" PendingState)
                        negativeVehicle main_legalLimit) <> None).
  { vm_compute. discriminate. }
  split; [reflexivity|]. split; [exact H|].
  destruct (failure_means_negative_gas negativeVehicle "Vehicle_1"
              main_legalLimit (or_introl eq_refl) H) as [_ Hneg].
  exact Hneg.
Defined.

Lemma store_mutual_exclusion_witness :
  main_reachable main_vehicles main_legalLimit storing_config /\
  storing_config.1 !! 0%nat = Some [Store "Vehicle_1" false; Unlock] /\
  resultMutex storing_config.2 = Some 0%nat.
Proof.
  split; [exact main_reachable_storing_config|]. split; [reflexivity|].
  destruct (store_mutual_exclusion main_vehicles main_legalLimit
              storing_config 0 0 "Vehicle_1" "Vehicle_1" false false
              [Unlock] [Unlock] main_reachable_storing_config
              eq_refl eq_refl) as [H _].
  exact H.
Defined.

Lemma main_no_deadlock_witness :
  main_reachable main_vehicles main_legalLimit storing_config /\
  exists c', rtc step storing_config c' /\ joined c'.1.
Proof.
  split; [exact main_reachable_storing_config|].
  destruct (main_no_deadlock main_vehicles main_legalLimit storing_config
              main_reachable_storing_config) as (_ & H & _).
  exact H.
Defined.

Lemma main_tests_schedule_independent_witness :
  main_tests main_vehicles main_legalLimit (world_in_order [0; 1; 2]%nat) /\
  main_tests main_vehicles main_legalLimit (world_in_order [2; 0; 1]%nat) /\
  cout (world_in_order [0; 1; 2]%nat) <> cout (world_in_order [2; 0; 1]%nat) /\
  testResults (world_in_order [0; 1; 2]%nat) =
  testResults (world_in_order [2; 0; 1]%nat).
Proof.
  split; [exact main_tests_world_012|]. split; [exact main_tests_world_201|].
  split; [vm_compute; discriminate|].
  exact (main_tests_schedule_independent main_vehicles main_legalLimit _ _
           main_tests_world_012 main_tests_world_201).
Defined.

Lemma main_tests_output_witness :
  main_tests main_vehicles main_legalLimit (world_in_order [2; 0; 1]%nat) /\
  cerr (world_in_order [2; 0; 1]%nat) = [].
Proof.
  split; [exact main_tests_world_201|].
  destruct (main_tests_output main_vehicles main_legalLimit _
              main_tests_world_201) as (pool & _ & _ & _ & _ & H).
  apply H. by repeat constructor.
Defined.

Lemma main_tests_thread_order_witness :
  main_tests main_vehicles main_legalLimit (world_in_order [2; 0; 1]%nat) /\
  main_vehicles !! 0%nat = Some vehicle_1 /\
  sublist (couts (runTest vehicle_1 (vehicleName 1) main_legalLimit))
          (cout (world_in_order [2; 0; 1]%nat)).
Proof.
  split; [exact main_tests_world_201|]. split; [reflexivity|].
  destruct (main_tests_thread_order main_vehicles main_legalLimit _ 0
              vehicle_1 main_tests_world_201 eq_refl) as [H _].
  exact H.
Defined.

Lemma runTest_alone_stores_witness :
  ltb (getEmissionLevel vehicle_1) (of_Z 0) = false /\
  resultMutex World_init = None /\
  exists w',
    exec 0 (runTest vehicle_1 "Vehicle_1" main_legalLimit) World_init
      = Some w' /\
    testResults w' !! "Vehicle_1" = Some false.
Proof.
  split; [reflexivity|]. split; [reflexivity|].
  destruct (runTest_alone_stores 0 vehicle_1 "Vehicle_1" main_legalLimit
              World_init eq_refl eq_refl) as (w' & He & Hl & _).
  exists w'. split; [exact He|exact Hl].
Defined.

Lemma vehicleName_distinct_witness :
  1 <> 2 /\ vehicleName 1 <> vehicleName 2.
Proof.
  assert (H : 1 <> 2) by discriminate.
  split; [exact H|]. exact (vehicleName_distinct 1 2 H).
Defined.

Lemma stoi_to_string_witness :
  no_digit_first "abc" /\ stoi (to_string 42 +:+ "abc") = inr 42.
Proof.
  assert (H : no_digit_first "abc") by reflexivity.
  split; [exact H|]. exact (stoi_to_string 42 "abc" H).
Defined.

Lemma checkVehicleDetails_assigned_identifier_witness :
  main_vehicles !! 1%nat = Some vehicle_2 /\
  1 + Z.of_nat 1 <= INT_MAX /\
  main_checkVehicleDetails main_vehicles (vehicleName (1 + Z.of_nat 1)) =
  Returned (displayDetails vehicle_2).
Proof.
  assert (H : 1 + Z.of_nat 1 <= INT_MAX) by discriminate.
  split; [reflexivity|]. split; [exact H|].
  exact (checkVehicleDetails_assigned_identifier main_vehicles 1 vehicle_2
           eq_refl H).
Defined.

Lemma checkVehicleDetails_unknown_number_witness :
  INT_MIN < 9 <= INT_MAX /\
  (9 <= 0 \/ Z.of_nat (length main_vehicles) < 9) /\
  main_checkVehicleDetails main_vehicles (vehicleName 9) =
  Returned [OStr "Invalid Vehicle ID."; OEndl].
Proof.
  assert (H : INT_MIN < 9 <= INT_MAX) by (split; [reflexivity|discriminate]).
  assert (H' : 9 <= 0 \/ Z.of_nat (length main_vehicles) < 9)
    by (right; reflexivity).
  split; [exact H|]. split; [exact H'|].
  exact (checkVehicleDetails_unknown_number main_vehicles 9 H H').
Defined.

Lemma checkVehicleDetails_reads_number_only_witness :
  String.length "Bicycle_" = 8%nat /\
  no_digit_first " please" /\
  main_checkVehicleDetails main_vehicles
    ("Bicycle_" +:+ to_string 2 +:+ " please") =
  main_checkVehicleDetails main_vehicles (vehicleName 2).
Proof.
  assert (H : no_digit_first " please") by reflexivity.
  split; [reflexivity|]. split; [exact H|].
  exact (checkVehicleDetails_reads_number_only main_vehicles "Bicycle_" 2
           " please" eq_refl H).
Defined.

Lemma checkVehicleDetails_short_input_witness :
  (String.length "abc" < 8)%nat /\
  main_checkVehicleDetails main_vehicles "abc" =
  Terminated (out_of_range "basic_string::substr").
Proof.
  assert (H : (String.length "abc" < 8)%nat) by (cbn; lia).
  split; [exact H|].
  exact (checkVehicleDetails_short_input main_vehicles "abc" H).
Defined.
